(** * The stompypro joint registry (sim/resources/stompypro/joints.py)

    A shallow embedding of the [Node] class hierarchy, of the reflection
    that enumerates its joints, and of the flat tables of [Robot]. *)

From Stdlib Require Import ZArith QArith Ascii String.
From stdpp Require Import base option list list_monad strings gmap sorting pretty.

Local Open Scope string_scope.
Local Open Scope list_scope.
Local Open Scope nat_scope.

(** ** Python values

    Only the distinctions that [isinstance(_, (Node, str))] makes are needed
    by the tree functions; the other shapes are the objects that the class
    bodies of the module bind or inherit. Strings are the ASCII strings of
    the source; its float literals are kept as the rationals they denote.

    A class is a subclass of [Node], given by its name and its body, and an
    instance has no attributes of its own. The methods of [Node] below are
    the functions that run on such a class; a body that rebinds their names
    is outside the model. *)

Inductive pynum :=
  | PyInt (z : Z)
  | PyFloat (q : Q).

Inductive pyval :=
  | PStr (s : string)
  | PInst (cls : pyclass)
  | PNum (n : pynum)
  | PList (l : list pynum)
  | PFunc
  | PNone
  | POpaque
with pyclass :=
  | PyClass (name : string) (body : list (string * pyval)).

Definition class_name (cls : pyclass) : string :=
  match cls with PyClass name _ => name end.

(** The class body is the sequence of its assignments, in the order in
    which the class statement executes them. *)
Definition class_body (cls : pyclass) : list (string * pyval) :=
  match cls with PyClass _ body => body end.

(** ** Name spaces and attribute lookup *)

(** A name bound twice keeps its last binding. *)
Fixpoint ns_lookup {V} (attr : string) (ns : list (string * V)) : option V :=
  match ns with
  | [] => None
  | (k, v) :: rest =>
      match ns_lookup attr rest with
      | Some w => Some w
      | None => if decide (k = attr) then Some v else None
      end
  end.

Definition module_name : string := "sim.resources.stompypro.joints".

(** What every subclass of [Node] finds along its bases [Node], [ABC] and
    [object]: the four class methods of [Node], the cache [_abc_impl] that
    [ABCMeta] attaches, and names of the form [__x__] (those of CPython
    3.11). Of the latter, [__module__] is bound to a string. *)
Definition Node_ns : list (string * pyval) :=
  [ ("__abstractmethods__", POpaque); ("__class__", POpaque);
    ("__delattr__", PFunc); ("__dict__", POpaque); ("__dir__", PFunc);
    ("__doc__", PNone); ("__eq__", PFunc); ("__format__", PFunc);
    ("__ge__", PFunc); ("__getattribute__", PFunc); ("__getstate__", PFunc);
    ("__gt__", PFunc); ("__hash__", PFunc); ("__init__", PFunc);
    ("__init_subclass__", PFunc); ("__le__", PFunc); ("__lt__", PFunc);
    ("__module__", PStr module_name); ("__ne__", PFunc); ("__new__", PFunc);
    ("__reduce__", PFunc); ("__reduce_ex__", PFunc); ("__repr__", PFunc);
    ("__setattr__", PFunc); ("__sizeof__", PFunc); ("__slots__", POpaque);
    ("__str__", PFunc); ("__subclasshook__", PFunc); ("__weakref__", POpaque);
    ("_abc_impl", POpaque);
    ("children", PFunc); ("joints", PFunc); ("joints_motors", PFunc);
    ("all_joints", PFunc) ].

(** [getattr(cls, attr)]: the class's own dictionary first, then its bases. *)
Definition getattr (cls : pyclass) (attr : string) : option pyval :=
  match ns_lookup attr (class_body cls) with
  | Some v => Some v
  | None => ns_lookup attr Node_ns
  end.

(** [dir(cls)]: the names of the class and of its bases, each once, sorted. *)
Definition dir (cls : pyclass) : list string :=
  merge_sort String.le (remove_dups ((class_body cls).*1 ++ Node_ns.*1)).

(** [attr.startswith("__")] *)
Definition startswith_dunder (attr : string) : bool := String.prefix "__" attr.

Definition is_str (v : pyval) : bool :=
  match v with PStr _ => true | _ => false end.

Definition is_Node (v : pyval) : bool :=
  match v with PInst _ => true | _ => false end.

(** ** The class [Node] *)

(** The generator [(getattr(cls, attr) for attr in dir(cls)
    if not attr.startswith("__"))], with the name kept beside each value. *)
Definition public_attrs (cls : pyclass) : list (string * pyval) :=
  omap (λ attr, pair attr <$> getattr cls attr)
       (filter (λ attr, ¬ startswith_dunder attr) (dir cls)).

Definition children (cls : pyclass) : list pyval :=
  filter (λ v, is_Node v ∨ is_str v) (public_attrs cls).*2.

Definition joints (cls : pyclass) : list string :=
  omap (λ v, match v with PStr s => Some s | _ => None end) (public_attrs cls).*2.

Definition joints_motors (cls : pyclass) : list (string * string) :=
  omap (λ '(attr, attr2),
          match attr2 with PStr s => Some (attr, s) | _ => None end)
       (public_attrs cls).

(** ** The robot *)

Definition LeftLeg : pyclass :=
  PyClass "LeftLeg"
    [ ("hip_pitch", PStr "L_hip_y");
      ("hip_yaw", PStr "L_hip_x");
      ("hip_roll", PStr "L_hip_z");
      ("knee_pitch", PStr "L_knee");
      ("ankle_pitch", PStr "L_ankle_y") ].

Definition RightLeg : pyclass :=
  PyClass "RightLeg"
    [ ("hip_pitch", PStr "R_hip_y");
      ("hip_yaw", PStr "R_hip_x");
      ("hip_roll", PStr "R_hip_z");
      ("knee_pitch", PStr "R_knee");
      ("ankle_pitch", PStr "R_ankle_y") ].

Definition LeftArm : pyclass :=
  PyClass "LeftArm"
    [ ("shoulder_pitch", PStr "L_shoulder_y");
      ("shoulder_roll", PStr "L_shoulder_z");
      ("shoulder_yaw", PStr "L_shoulder_x");
      ("elbow_pitch", PStr "L_elbow_x") ].

Definition RightArm : pyclass :=
  PyClass "RightArm"
    [ ("shoulder_pitch", PStr "R_shoulder_y");
      ("shoulder_roll", PStr "R_shoulder_z");
      ("shoulder_yaw", PStr "R_shoulder_x");
      ("elbow_pitch", PStr "R_elbow_x") ].

Definition Legs : pyclass :=
  PyClass "Legs" [ ("left", PInst LeftLeg); ("right", PInst RightLeg) ].

Definition Arms : pyclass :=
  PyClass "Arms" [ ("left", PInst LeftArm); ("right", PInst RightArm) ].

Definition Robot : pyclass :=
  PyClass "Robot"
    [ ("legs", PInst Legs);
      ("height", PNum (PyFloat 0.63));
      ("rotation", PList [PyFloat 0.0; PyFloat 0.0; PyInt 0; PyInt 1]);
      ("isaac_to_mujoco_signs", PFunc);
      ("default_positions", PFunc);
      ("default_standing", PFunc);
      ("default_limits", PFunc);
      ("stiffness", PFunc);
      ("damping", PFunc);
      ("effort", PFunc);
      ("velocity", PFunc);
      ("friction", PFunc) ].

(** ** [Node.all_joints]

    The method calls itself on the class of every child that is a [Node].
    [fuel] bounds the nesting of these calls; [depth] is the nesting that a
    class needs. *)

Definition extend_with (rec : pyclass → option (list string))
    (leaves : option (list string)) (child : pyval) : option (list string) :=
  match child with
  | PInst c => l ← leaves; sub ← rec c; Some (l ++ sub)
  | _ => leaves
  end.

Fixpoint all_joints_rec (fuel : nat) (cls : pyclass) : option (list string) :=
  match fuel with
  | 0 => None
  | S fuel' =>
      foldl (extend_with (all_joints_rec fuel')) (Some (joints cls)) (children cls)
  end.

Fixpoint depth (cls : pyclass) : nat :=
  match cls with
  | PyClass _ body =>
      S (max_list (map (λ p, match p.2 with PInst c => depth c | _ => 0 end) body))
  end.

Definition all_joints (cls : pyclass) : list string :=
  default [] (all_joints_rec (depth cls) cls).

Definition node_of (v : pyval) : option pyclass :=
  match v with PInst c => Some c | _ => None end.

(** The children that are nodes, as classes, in the order of [children]. *)
Definition child_nodes (cls : pyclass) : list pyclass :=
  omap node_of (children cls).

(** ** [textwrap.indent] and [Node.__str__] *)

Definition nl : string := String "010"%char "".

(** The ASCII characters at which [str.splitlines] ends a line. *)
Definition is_linebreak (a : ascii) : bool :=
  match a with
  | "010" | "011" | "012" | "013" | "028" | "029" | "030" => true
  | _ => false
  end%char.

(** The ASCII characters that [str.strip] removes. *)
Definition isspace (a : ascii) : bool :=
  match a with
  | "009" | "010" | "011" | "012" | "013"
  | "028" | "029" | "030" | "031" | " " => true
  | _ => false
  end%char.

(** [text.splitlines(True)], with [line] the part of the current line that
    has been read. A carriage return followed by a line feed ends one line. *)
Fixpoint splitlines_from (line text : string) : list string :=
  match text with
  | "" => if decide (line = "") then [] else [line]
  | String a rest =>
      if is_linebreak a then
        match a, rest with
        | "013"%char, String "010"%char rest' =>
            (line +:+ String a nl) :: splitlines_from "" rest'
        | _, _ => (line +:+ String a "") :: splitlines_from "" rest
        end
      else splitlines_from (line +:+ String a "") rest
  end.

Definition splitlines_keepends (text : string) : list string :=
  splitlines_from "" text.

(** The default predicate of [indent]: [line.strip()] is not empty. *)
Definition strip_nonempty (line : string) : bool :=
  existsb (λ a, negb (isspace a)) (list_ascii_of_string line).

Definition indent (text prefix : string) : string :=
  String.concat ""
    (map (λ line, if strip_nonempty line then prefix +:+ line else line)
         (splitlines_keepends text)).

(** [str(child)] for a child of a node; [children] holds nothing else than
    strings and nodes. *)
Definition child_str (rec : pyclass → option string) (child : pyval) : option string :=
  match child with
  | PStr s => Some s
  | PInst c => rec c
  | _ => None
  end.

Fixpoint Node_str_rec (fuel : nat) (cls : pyclass) : option string :=
  match fuel with
  | 0 => None
  | S fuel' =>
      parts ← mapM (child_str (Node_str_rec fuel')) (children cls);
      let parts_str := indent (nl +:+ String.concat nl parts) "  " in
      Some ("[" +:+ class_name cls +:+ "]" +:+ parts_str)
  end.

Definition Node_str (cls : pyclass) : string :=
  default "" (Node_str_rec (depth cls) cls).

(** ** Statements: standard output and exceptions *)

Inductive exn :=
  | AssertionError (msg : string)
  | KeyError (key : string).

(** A statement maps the text written so far to the text written after it,
    and ends with a value or with an exception. *)
Definition proc (A : Type) : Type := string → string * (exn + A).

Global Instance proc_ret : MRet proc := λ A x out, (out, inr x).

Global Instance proc_bind : MBind proc := λ A B k m out,
  match m out with
  | (out', inr x) => k x out'
  | (out', inl e) => (out', inl e)
  end.

Definition print (text : string) : proc unit :=
  λ out, (out +:+ text +:+ nl, inr ()).

Definition py_assert (cond : bool) (msg : string) : proc unit :=
  λ out, (out, if cond then inr () else inl (AssertionError msg)).

(** [len(joints) == len(set(joints))] *)
Definition len_eq_len_set (joints : list string) : bool :=
  bool_decide (length joints = size (list_to_set (C := gset string) joints)).

(** The body of [print_joints], for the class that the name [Robot] denotes. *)
Definition print_joints_of (robot : pyclass) : proc unit :=
  let joints := all_joints robot in
  py_assert (len_eq_len_set joints) "Duplicate joint names found!" ;;
  print (Node_str robot) ;;
  print (pretty (length joints)).

Definition print_joints : proc unit := print_joints_of Robot.

(** ** The flat tables of [Robot] *)

(** An attribute reference [cls.attr.a1. ... .an]: every step but the last
    must yield an instance, whose attributes are those of its class. *)
Fixpoint attr_chain (cls : pyclass) (attr : string) (more : list string) : option pyval :=
  v ← getattr cls attr;
  match more with
  | [] => Some v
  | a :: more' =>
      match v with
      | PInst c => attr_chain c a more'
      | _ => None
      end
  end.

(** A dict display [{k1: v1, ..., kn: vn}] whose keys are strings: the items
    are entered from left to right, a repeated key keeps its last value. *)
Definition dict_display {V} (items : list (option pyval * V)) : option (gmap string V) :=
  foldl (λ acc item,
           d ← acc; k ← item.1;
           match k with
           | PStr s => Some (<[s := item.2]> d)
           | _ => None
           end)
        (Some ∅) items.

Definition isaac_to_mujoco_signs : option (gmap string Z) :=
  dict_display
    [ (attr_chain Robot "legs" ["left"; "hip_pitch"], 1%Z);
      (attr_chain Robot "legs" ["left"; "hip_yaw"], 1%Z);
      (attr_chain Robot "legs" ["left"; "hip_roll"], 1%Z);
      (attr_chain Robot "legs" ["left"; "knee_pitch"], 1%Z);
      (attr_chain Robot "legs" ["left"; "ankle_pitch"], 1%Z);
      (attr_chain Robot "legs" ["right"; "hip_pitch"], 1%Z);
      (attr_chain Robot "legs" ["right"; "hip_yaw"], 1%Z);
      (attr_chain Robot "legs" ["right"; "hip_roll"], 1%Z);
      (attr_chain Robot "legs" ["right"; "knee_pitch"], 1%Z);
      (attr_chain Robot "legs" ["right"; "ankle_pitch"], 1%Z) ].

Definition default_positions : gmap string Q := ∅.

Definition default_standing : option (gmap string Q) :=
  dict_display
    [ (attr_chain Robot "legs" ["left"; "hip_pitch"], (-0.157)%Q);
      (attr_chain Robot "legs" ["left"; "hip_yaw"], 0.0394%Q);
      (attr_chain Robot "legs" ["left"; "hip_roll"], 0.0628%Q);
      (attr_chain Robot "legs" ["left"; "knee_pitch"], 0.441%Q);
      (attr_chain Robot "legs" ["left"; "ankle_pitch"], (-0.258)%Q);
      (attr_chain Robot "legs" ["right"; "hip_pitch"], (-0.22)%Q);
      (attr_chain Robot "legs" ["right"; "hip_yaw"], 0.026%Q);
      (attr_chain Robot "legs" ["right"; "hip_roll"], 0.0314%Q);
      (attr_chain Robot "legs" ["right"; "knee_pitch"], 0.441%Q);
      (attr_chain Robot "legs" ["right"; "ankle_pitch"], (-0.223)%Q) ].

Definition default_limits : gmap string (gmap string Q) := ∅.

(** The tables by joint class. Their keys are string literals. *)
Definition stiffness : option (gmap string Q) :=
  dict_display
    [ (Some (PStr "hip_y"), 150%Q); (Some (PStr "hip_x"), 150%Q);
      (Some (PStr "hip_z"), 100%Q); (Some (PStr "knee"), 150%Q);
      (Some (PStr "ankle_y"), 25%Q) ].

Definition damping : option (gmap string Q) :=
  dict_display
    [ (Some (PStr "hip_y"), 10%Q); (Some (PStr "hip_x"), 10%Q);
      (Some (PStr "hip_z"), 10%Q); (Some (PStr "knee"), 10%Q);
      (Some (PStr "ankle_y"), 10%Q) ].

Definition effort : option (gmap string Q) :=
  dict_display
    [ (Some (PStr "hip_y"), 150%Q); (Some (PStr "hip_x"), 150%Q);
      (Some (PStr "hip_z"), 100%Q); (Some (PStr "knee"), 150%Q);
      (Some (PStr "ankle_y"), 25%Q) ].

Definition velocity : option (gmap string Q) :=
  dict_display
    [ (Some (PStr "hip_y"), 10%Q); (Some (PStr "hip_x"), 10%Q);
      (Some (PStr "hip_z"), 10%Q); (Some (PStr "knee"), 10%Q);
      (Some (PStr "ankle_y"), 10%Q) ].

Definition friction : option (gmap string Q) :=
  dict_display
    [ (Some (PStr "hip"), 0%Q); (Some (PStr "knee"), 0%Q);
      (Some (PStr "ankle"), 0%Q) ].

(** The subscription [d[key]] of a dict. *)
Definition dict_getitem {V} (d : gmap string V) (key : string) : exn + V :=
  match d !! key with
  | Some v => inr v
  | None => inl (KeyError key)
  end.

(** ** The registry operations of the specification *)

Inductive registry_error :=
  | UnknownJoint (name : string)
  | DanglingReference (name : string).

(** Modelled from the spec: the lookup [sign_for] is not in the module, which
    hands out the sign map itself. It returns the entry of the sign map and
    fails with [UnknownJoint(joint_name)] if the name is not present. *)
Definition sign_for (sign_map : gmap string Z) (joint_name : string)
    : registry_error + Z :=
  match sign_map !! joint_name with
  | Some sign => inr sign
  | None => inl (UnknownJoint joint_name)
  end.

(** The keys of a flat table that are no joint of the tree. *)
Definition dangling (names : list string) (keys : gset string) : list string :=
  filter (λ key, key ∉ names) (elements keys).

(** Modelled from the spec: the cross-check made when a registry is built is
    not in the module. Every key of the sign map and of the default standing
    pose must appear among the joint names of the tree; otherwise the check
    fails with [DanglingReference(name)]. *)
Definition cross_check {V W} (names : list string)
    (sign_map : gmap string V) (default_standing_pose : gmap string W)
    : registry_error + unit :=
  match dangling names (dom sign_map) ++ dangling names (dom default_standing_pose) with
  | [] => inr ()
  | name :: _ => inl (DanglingReference name)
  end.

(** ** List objects

    [all_joints] builds its result in place: it extends the list that
    [joints] returned. The store holds the list objects that exist, a
    reference is the position of an object in the store, and a method
    returns a reference. *)

Abbreviation store := (list (list string)).

Definition st (A : Type) : Type := store → option (A * store).

Global Instance st_ret : MRet st := λ A x σ, Some (x, σ).

Global Instance st_bind : MBind st := λ A B k m σ,
  match m σ with
  | Some (x, σ') => k x σ'
  | None => None
  end.

(** A list display or comprehension makes a new object. *)
Definition new_list (items : list string) : st nat :=
  λ σ, Some (length σ, σ ++ [items]).

(** [r.extend(r')] appends the items of [r'] to the object [r]. *)
Definition extend (r r' : nat) : st unit :=
  λ σ, l ← σ !! r; items ← σ !! r'; Some ((), <[r := l ++ items]> σ).

Fixpoint for_each {A} (body : A → st unit) (l : list A) : st unit :=
  match l with
  | [] => mret ()
  | x :: l' => body x ;; for_each body l'
  end.

Definition joints_st (cls : pyclass) : st nat := new_list (joints cls).

Fixpoint all_joints_st (fuel : nat) (cls : pyclass) : st nat :=
  match fuel with
  | 0 => λ _, None
  | S fuel' =>
      leaves ← joints_st cls;
      for_each (λ child,
                  match child with
                  | PInst c => sub ← all_joints_st fuel' c; extend leaves sub
                  | _ => mret ()
                  end)
               (children cls) ;;
      mret leaves
  end.

(** ** Notions used in the statements *)

(** The text of a child, given the text [g] of the nodes. *)
Definition child_text (g : pyclass → string) (child : pyval) : string :=
  match child with
  | PStr s => s
  | PInst c => g c
  | _ => ""
  end.

(** A call allocates its result past the objects that exist, which it
    leaves as they are; what else it allocates lies behind the result. *)
Definition returns_new (m : st nat) (items : list string) : Prop :=
  ∀ σ, ∃ rest, m σ = Some (length σ, σ ++ items :: rest).

(** A robot whose two legs are both of class [LeftLeg]: every joint name
    occurs twice. *)
Definition TwinLegs : pyclass :=
  PyClass "Legs" [ ("left", PInst LeftLeg); ("right", PInst LeftLeg) ].

Definition TwinRobot : pyclass := PyClass "Robot" [ ("legs", PInst TwinLegs) ].

(** One step of a dict display: the item is entered into the dict. *)
Definition enter {V} (d : gmap string V) (kv : string * V) : gmap string V :=
  <[kv.1 := kv.2]> d.

(** The items of the two dict displays of [Robot], with their keys
    evaluated. *)
Definition sign_items : list (string * Z) :=
  [ ("L_hip_y", 1%Z); ("L_hip_x", 1%Z); ("L_hip_z", 1%Z); ("L_knee", 1%Z);
    ("L_ankle_y", 1%Z); ("R_hip_y", 1%Z); ("R_hip_x", 1%Z); ("R_hip_z", 1%Z);
    ("R_knee", 1%Z); ("R_ankle_y", 1%Z) ].

Definition standing_items : list (string * Q) :=
  [ ("L_hip_y", (-0.157)%Q); ("L_hip_x", 0.0394%Q); ("L_hip_z", 0.0628%Q);
    ("L_knee", 0.441%Q); ("L_ankle_y", (-0.258)%Q); ("R_hip_y", (-0.22)%Q);
    ("R_hip_x", 0.026%Q); ("R_hip_z", 0.0314%Q); ("R_knee", 0.441%Q);
    ("R_ankle_y", (-0.223)%Q) ].

(** A leg that binds one joint name under two attributes. *)
Definition Clubfoot : pyclass :=
  PyClass "Leg" [ ("knee_pitch", PStr "knee"); ("ankle_pitch", PStr "knee") ].

(** A robot that binds no legs. *)
Definition Legless : pyclass :=
  PyClass "Robot" [ ("height", PNum (PyFloat 0.63)) ].

Definition str_of (v : pyval) : option string :=
  match v with PStr s => Some s | _ => None end.

(** The classes of the nodes of the tree below a class, the class itself
    included. *)
Inductive descendant : pyclass → pyclass → Prop :=
  | descendant_refl cls : descendant cls cls
  | descendant_step cls c c' :
      c ∈ child_nodes cls → descendant c c' → descendant cls c'.

(** The lines of the rendering of a class: its name in brackets and, two
    columns to the right, the lines of its children, one for a joint. *)
Definition child_lines (g : pyclass → list string) (child : pyval) : list string :=
  match child with
  | PStr s => [s]
  | PInst c => g c
  | _ => []
  end.

Fixpoint Node_lines_rec (fuel : nat) (cls : pyclass) : list string :=
  match fuel with
  | 0 => []
  | S fuel' =>
      ("[" +:+ class_name cls +:+ "]")
        :: (String.append "  "
              <$> concat (child_lines (Node_lines_rec fuel') <$> children cls))
  end.

Definition Node_lines (cls : pyclass) : list string :=
  Node_lines_rec (depth cls) cls.

Fixpoint no_linebreak (s : string) : bool :=
  match s with
  | "" => true
  | String a s' => negb (is_linebreak a) && no_linebreak s'
  end.

(** A name that fills one line: it holds no line break and is not blank. *)
Definition plain_line (s : string) : Prop := no_linebreak s ∧ strip_nonempty s.

Global Instance plain_line_dec s : Decision (plain_line s).
Proof. unfold plain_line. apply _. Defined.

(** Every node of the tree has a child, and the names in the tree fill one
    line each. *)
Definition plain_tree (cls : pyclass) : Prop :=
  ∀ c, descendant cls c →
       children c ≠ [] ∧ no_linebreak (class_name c) ∧
       Forall plain_line (joints c).


(** The keys of the tables by joint class. *)
Definition class_keys : list string :=
  ["hip_y"; "hip_x"; "hip_z"; "knee"; "ankle_y"].

Definition friction_keys : list string := ["hip"; "knee"; "ankle"].

(** A closed decidable proposition, by evaluation. *)
Ltac by_evaluation := apply (bool_decide_unpack _); vm_compute; exact I.

(** * Properties *)

(** ** Attribute lookup *)

Lemma ns_lookup_elem {V} attr (ns : list (string * V)) v :
  ns_lookup attr ns = Some v → (attr, v) ∈ ns.
Proof.
  induction ns as [|[k w] rest IH]; simpl; [done|].
  destruct (ns_lookup attr rest) as [u|].
  - intros [= ->]. right. by apply IH.
  - case_decide as Hk; [|done]. intros [= ->]. subst k. left.
Qed.

Lemma ns_lookup_is_Some {V} attr (ns : list (string * V)) :
  is_Some (ns_lookup attr ns) ↔ attr ∈ ns.*1.
Proof.
  induction ns as [|[k w] rest IH]; simpl.
  - split; [by intros [? ?]|by intros ?%elem_of_nil].
  - rewrite elem_of_cons, <-IH. destruct (ns_lookup attr rest) as [u|].
    + split; eauto.
    + case_decide as Hk; split; eauto.
      intros [->| [? ?]]; done.
Qed.

Lemma Node_ns_no_instance attr c : ns_lookup attr Node_ns ≠ Some (PInst c).
Proof.
  intros H%ns_lookup_elem.
  assert (Forall (λ p, ¬ is_Node p.2) Node_ns) as Hall
    by (unfold Node_ns; repeat constructor; simpl; tauto).
  rewrite Forall_forall in Hall. by apply (Hall _ H).
Qed.

Lemma getattr_instance cls attr c :
  getattr cls attr = Some (PInst c) → (attr, PInst c) ∈ class_body cls.
Proof.
  unfold getattr. destruct (ns_lookup attr (class_body cls)) eqn:Hown.
  - intros [= ->]. by apply ns_lookup_elem.
  - intros H. by destruct (Node_ns_no_instance _ _ H).
Qed.

Lemma getattr_is_Some cls attr :
  is_Some (getattr cls attr) ↔ attr ∈ (class_body cls).*1 ++ Node_ns.*1.
Proof.
  rewrite elem_of_app, <-!ns_lookup_is_Some. unfold getattr.
  destruct (ns_lookup attr (class_body cls)); split; eauto.
  intros [[? ?]|?]; done.
Qed.

Lemma elem_of_dir cls attr : attr ∈ dir cls ↔ is_Some (getattr cls attr).
Proof.
  unfold dir. rewrite merge_sort_Permutation, elem_of_remove_dups.
  by rewrite getattr_is_Some.
Qed.

Lemma elem_of_public_attrs cls attr v :
  (attr, v) ∈ public_attrs cls ↔
  getattr cls attr = Some v ∧ ¬ startswith_dunder attr.
Proof.
  unfold public_attrs. rewrite list_elem_of_omap. split.
  - intros (a & [Hd Ha]%list_elem_of_filter & Hv).
    destruct (getattr cls a) eqn:Hget; simplify_eq/=. done.
  - intros [Hget Hd]. exists attr. rewrite Hget. split; [|done].
    apply list_elem_of_filter. split; [done|].
    apply elem_of_dir. by rewrite Hget.
Qed.

Lemma elem_of_children cls v :
  v ∈ children cls ↔
  (is_Node v ∨ is_str v) ∧
  ∃ attr, getattr cls attr = Some v ∧ ¬ startswith_dunder attr.
Proof.
  unfold children. rewrite list_elem_of_filter, list_elem_of_fmap.
  setoid_rewrite <-elem_of_public_attrs. split.
  - intros [? ([a w] & -> & ?)]. eauto.
  - intros [? (a & ?)]. split; [done|]. by exists (a, v).
Qed.

(** ** Nesting depth *)

Lemma depth_body_lt cls attr c :
  (attr, PInst c) ∈ class_body cls → depth c < depth cls.
Proof.
  destruct cls as [name body]. simpl. intros Hin.
  apply Nat.lt_succ_r, max_list_elem_of_le, list_elem_of_fmap.
  by exists (attr, PInst c).
Qed.

Lemma depth_child_lt cls c : PInst c ∈ children cls → depth c < depth cls.
Proof.
  intros [_ (attr & Hget & _)]%elem_of_children.
  eauto using depth_body_lt, getattr_instance.
Qed.

Lemma elem_of_child_nodes cls c : c ∈ child_nodes cls ↔ PInst c ∈ children cls.
Proof.
  unfold child_nodes. rewrite list_elem_of_omap. split.
  - intros (v & Hv & Hc). by destruct v; simplify_eq/=.
  - intros Hc. by exists (PInst c).
Qed.

Lemma depth_pos cls : 0 < depth cls.
Proof. destruct cls. simpl. lia. Qed.

(** ** The order of [dir] *)

Lemma StronglySorted_strict {A} (R : relation A) `{!AntiSymm (=) R} l :
  StronglySorted R l → NoDup l → StronglySorted (strict R) l.
Proof.
  induction 1 as [|x l Hl IH Hx]; intros Hnd; [constructor|].
  apply NoDup_cons in Hnd as [Hnotin Hnd]. constructor; [by apply IH|].
  rewrite Forall_forall in Hx |- *. intros y Hy. split; [by apply Hx|].
  intros Hyx. assert (x = y) as -> by (apply (anti_symm R); auto). done.
Qed.

Lemma StronglySorted_sublist {A} (R : relation A) k l :
  k `sublist_of` l → StronglySorted R l → StronglySorted R k.
Proof.
  induction 1 as [|x k l Hkl IH|x k l Hkl IH]; intros Hs; [done|..].
  - apply StronglySorted_inv in Hs as [Hs Hx]. constructor; [by apply IH|].
    rewrite Forall_forall in Hx |- *. intros y Hy.
    apply Hx. by eapply elem_of_sublist.
  - apply StronglySorted_inv in Hs as [Hs _]. by apply IH.
Qed.

Lemma dir_NoDup cls : NoDup (dir cls).
Proof.
  unfold dir. rewrite merge_sort_Permutation. apply NoDup_remove_dups.
Qed.

Lemma dir_sorted cls : StronglySorted (strict String.le) (dir cls).
Proof.
  apply StronglySorted_strict; [apply _| |apply dir_NoDup].
  unfold dir. apply (StronglySorted_merge_sort String.le).
Qed.

Lemma omap_pair_fst_sublist {A B} (f : A → option B) l :
  (omap (λ a, pair a <$> f a) l).*1 `sublist_of` l.
Proof.
  induction l as [|a l IH]; simpl; [constructor|].
  destruct (f a); simpl; by constructor.
Qed.

Lemma public_attrs_sublist cls : (public_attrs cls).*1 `sublist_of` dir cls.
Proof.
  unfold public_attrs. etrans; [apply omap_pair_fst_sublist|].
  apply sublist_filter.
Qed.

Lemma joints_motors_sublist cls :
  (joints_motors cls).*1 `sublist_of` (public_attrs cls).*1.
Proof.
  unfold joints_motors. induction (public_attrs cls) as [|[a v] l IH]; simpl;
    [constructor|].
  destruct v; simpl; by constructor.
Qed.

Lemma joints_motors_snd cls : (joints_motors cls).*2 = joints cls.
Proof.
  unfold joints_motors, joints.
  induction (public_attrs cls) as [|[a v] l IH]; simpl; [done|].
  destruct v; simpl; by f_equal.
Qed.

Lemma elem_of_joints_motors cls attr s :
  (attr, s) ∈ joints_motors cls ↔
  getattr cls attr = Some (PStr s) ∧ ¬ startswith_dunder attr.
Proof.
  rewrite <-elem_of_public_attrs. unfold joints_motors.
  rewrite list_elem_of_omap. split.
  - intros ([a v] & Hin & Hv). by destruct v; simplify_eq.
  - intros Hin. by exists (attr, PStr s).
Qed.

(** ** [all_joints] returns on every class *)

Lemma foldl_extend_with rec (g : pyclass → list string) vs l0 :
  (∀ c, PInst c ∈ vs → rec c = Some (g c)) →
  foldl (extend_with rec) (Some l0) vs = Some (l0 ++ concat (g <$> omap node_of vs)).
Proof.
  revert l0. induction vs as [|v vs IH]; intros l0 Hrec; simpl.
  - by rewrite app_nil_r.
  - assert (∀ c, PInst c ∈ vs → rec c = Some (g c)) as Hrec'
      by (intros c Hc; apply Hrec; by right).
    destruct v; simpl; try by apply IH.
    rewrite Hrec by left. simpl. rewrite IH by done. by rewrite <-(assoc_L (++)).
Qed.

Lemma all_joints_rec_unfold n cls fuel :
  depth cls ≤ n → depth cls ≤ fuel →
  all_joints_rec fuel cls
  = Some (joints cls ++ concat (all_joints <$> child_nodes cls)).
Proof.
  revert cls fuel. induction n as [|n IH]; intros cls fuel Hn Hfuel.
  { pose proof (depth_pos cls). lia. }
  destruct fuel as [|fuel]; [pose proof (depth_pos cls); lia|].
  simpl. apply foldl_extend_with. intros c Hc%depth_child_lt.
  unfold all_joints. rewrite (IH c (depth c)) by lia. simpl.
  apply IH; lia.
Qed.

Lemma all_joints_unfold cls :
  all_joints cls = joints cls ++ concat (all_joints <$> child_nodes cls).
Proof.
  unfold all_joints at 1. by rewrite (all_joints_rec_unfold (depth cls)).
Qed.

Lemma all_joints_rec_Some cls fuel :
  depth cls ≤ fuel → all_joints_rec fuel cls = Some (all_joints cls).
Proof.
  intros Hfuel. rewrite all_joints_unfold.
  by apply (all_joints_rec_unfold (depth cls)).
Qed.

(** ** [Node.__str__] returns on every class *)

Lemma mapM_child_str rec (g : pyclass → string) vs :
  Forall (λ v, is_Node v ∨ is_str v) vs →
  (∀ c, PInst c ∈ vs → rec c = Some (g c)) →
  mapM (child_str rec) vs = Some (child_text g <$> vs).
Proof.
  intros Hkind Hrec. apply mapM_Some_2.
  induction Hkind as [|v vs Hv Hkind IH]; simpl; constructor.
  - destruct v; simpl in *; try tauto. apply Hrec. left.
  - apply IH. intros c Hc. apply Hrec. by right.
Qed.

Lemma children_kinds cls : Forall (λ v, is_Node v ∨ is_str v) (children cls).
Proof.
  apply Forall_forall. by intros v [? _]%elem_of_children.
Qed.

Lemma Node_str_rec_unfold n cls fuel :
  depth cls ≤ n → depth cls ≤ fuel →
  Node_str_rec fuel cls
  = Some ("[" +:+ class_name cls +:+ "]" +:+
          indent (nl +:+ String.concat nl (child_text Node_str <$> children cls)) "  ").
Proof.
  revert cls fuel. induction n as [|n IH]; intros cls fuel Hn Hfuel.
  { pose proof (depth_pos cls). lia. }
  destruct fuel as [|fuel]; [pose proof (depth_pos cls); lia|].
  simpl. rewrite (mapM_child_str _ Node_str); [done|apply children_kinds|].
  intros c Hc%depth_child_lt.
  unfold Node_str. rewrite (IH c (depth c)) by lia. simpl.
  apply IH; lia.
Qed.

Lemma Node_str_rec_Some cls fuel :
  depth cls ≤ fuel → Node_str_rec fuel cls = Some (Node_str cls).
Proof.
  intros Hfuel. unfold Node_str.
  rewrite (Node_str_rec_unfold (depth cls) cls (depth cls)) by done.
  by apply (Node_str_rec_unfold (depth cls)).
Qed.

(** The rendering of the robot, as [print(Robot())] shows it. *)
Example Node_str_Robot :
  Node_str Robot = "[Robot]
  [Legs]
    [LeftLeg]
      L_ankle_y
      L_hip_y
      L_hip_z
      L_hip_x
      L_knee
    [RightLeg]
      R_ankle_y
      R_hip_y
      R_hip_z
      R_hip_x
      R_knee".
Proof. by vm_compute. Qed.

(** A line of blanks is not indented, and a line that ends in a carriage
    return and a line feed is one line. *)
Example indent_lines :
  indent ("a" +:+ nl +:+ "  " +:+ nl +:+ "b" +:+ String "013" nl +:+ "c") "--"
  = "--a" +:+ nl +:+ "  " +:+ nl +:+ "--b" +:+ String "013" nl +:+ "--c".
Proof. by vm_compute. Qed.

(** Without the test on the prefix [__], the string bound to [__module__]
    would be listed among the joints. *)
Example module_is_hidden :
  getattr LeftLeg "__module__" = Some (PStr module_name) ∧
  "__module__" ∈ dir LeftLeg ∧
  module_name ∉ joints LeftLeg.
Proof.
  split_and!; [done|by_evaluation|by_evaluation].
Qed.

(** ** The list objects of [all_joints] *)

Lemma st_bind_Some {A B} (m : st A) (k : A → st B) σ x σ' :
  m σ = Some (x, σ') → (m ≫= k) σ = k x σ'.
Proof. intros Hm. unfold mbind, st_bind. by rewrite Hm. Qed.

Lemma extend_middle (σ : store) acc rest items rest1 :
  extend (length σ) (length (σ ++ acc :: rest))
         ((σ ++ acc :: rest) ++ items :: rest1)
  = Some ((), σ ++ (acc ++ items) :: rest ++ items :: rest1).
Proof.
  unfold extend. rewrite (list_lookup_middle (σ ++ acc :: rest)) by done.
  rewrite <-(assoc_L (++) σ), <-app_comm_cons.
  rewrite (list_lookup_middle σ) by done. simpl.
  replace (length σ) with (length σ + 0) at 1 by lia.
  by rewrite insert_app_r.
Qed.

Lemma extend_children_st (rec : pyclass → st nat) vs (σ : store) acc rest :
  (∀ c, PInst c ∈ vs → returns_new (rec c) (all_joints c)) →
  ∃ rest',
    for_each (λ child,
                match child with
                | PInst c => sub ← rec c; extend (length σ) sub
                | _ => mret ()
                end) vs (σ ++ acc :: rest)
    = Some ((), σ ++ (acc ++ concat (all_joints <$> omap node_of vs)) :: rest').
Proof.
  revert acc rest. induction vs as [|v vs IH]; intros acc rest Hrec.
  { exists rest. simpl. by rewrite app_nil_r. }
  assert (∀ c, PInst c ∈ vs → returns_new (rec c) (all_joints c)) as Hrec'
    by (intros c Hc; apply Hrec; by right).
  destruct v as [s|c| | | | |];
    try (destruct (IH acc rest Hrec') as [rest' Heq]; exists rest'; exact Heq).
  destruct (Hrec c (list_elem_of_here _ _) (σ ++ acc :: rest)) as [rest1 Hcall].
  destruct (IH (acc ++ all_joints c) (rest ++ all_joints c :: rest1) Hrec')
    as [rest' Heq].
  exists rest'. cbn [for_each omap list_omap node_of fmap list_fmap concat].
  rewrite (assoc_L (++) acc), <-Heq.
  apply (st_bind_Some _ (λ _, for_each _ vs) _ ()).
  rewrite (st_bind_Some _ _ _ _ _ Hcall).
  apply extend_middle.
Qed.

Lemma all_joints_st_returns_new n cls fuel :
  depth cls ≤ n → depth cls ≤ fuel →
  returns_new (all_joints_st fuel cls) (all_joints cls).
Proof.
  revert cls fuel. induction n as [|n IH]; intros cls fuel Hn Hfuel σ.
  { pose proof (depth_pos cls). lia. }
  destruct fuel as [|fuel]; [pose proof (depth_pos cls); lia|].
  destruct (extend_children_st (all_joints_st fuel) (children cls) σ
              (joints cls) []) as [rest Hloop].
  { intros c Hc%depth_child_lt. apply IH; lia. }
  exists rest. cbn [all_joints_st].
  rewrite (st_bind_Some _ _ σ (length σ) (σ ++ [joints cls])) by done.
  rewrite (st_bind_Some _ _ _ _ _ Hloop). by rewrite all_joints_unfold.
Qed.

(** ** The uniqueness test *)

Lemma size_list_to_set_le (l : list string) :
  size (list_to_set (C := gset string) l) ≤ length l.
Proof.
  induction l as [|x l IH]; [by rewrite list_to_set_nil, size_empty|].
  rewrite list_to_set_cons, size_union_alt, size_singleton. simpl.
  pose proof (subseteq_size (list_to_set (C := gset string) l ∖ {[x]})
                (list_to_set l) (subseteq_difference_l _ _ _ (reflexivity _))).
  lia.
Qed.

Lemma len_eq_len_set_NoDup (joints : list string) :
  len_eq_len_set joints ↔ NoDup joints.
Proof.
  unfold len_eq_len_set. rewrite bool_decide_spec. split.
  - induction joints as [|x l IH]; [constructor|].
    rewrite list_to_set_cons. simpl.
    intros Hlen. destruct (decide (x ∈ l)) as [Hin|Hnotin].
    + rewrite (subseteq_union_1_L {[x]} (list_to_set l)) in Hlen
        by (by apply singleton_subseteq_l, elem_of_list_to_set).
      pose proof (size_list_to_set_le l). lia.
    + rewrite size_union, size_singleton in Hlen
        by (by apply disjoint_singleton_l; rewrite elem_of_list_to_set).
      constructor; [done|]. apply IH. lia.
  - intros Hnd. symmetry. by apply size_list_to_set.
Qed.

Lemma public_attrs_sorted cls :
  StronglySorted (strict String.le) (public_attrs cls).*1.
Proof.
  eapply StronglySorted_sublist; [apply public_attrs_sublist|apply dir_sorted].
Qed.

Lemma children_public_attrs cls :
  children cls = (filter (λ p, is_Node p.2 ∨ is_str p.2) (public_attrs cls)).*2.
Proof.
  unfold children. induction (public_attrs cls) as [|[a v] l IH]; [done|].
  rewrite fmap_cons, !filter_cons. simpl.
  destruct (decide (is_Node v ∨ is_str v)); simpl; by rewrite IH.
Qed.

(** * The claims *)

(** C1, as stated, fails: the direct joints of [LeftLeg] are not listed in the
    order [hip_pitch, hip_yaw, hip_roll, knee_pitch, ankle_pitch] in which
    the class body binds them. *)
Lemma C1_joints_LeftLeg_not_definition_order :
  joints LeftLeg ≠ ["L_hip_y"; "L_hip_x"; "L_hip_z"; "L_knee"; "L_ankle_y"].
Proof. vm_compute. discriminate. Qed.

(** C1, amended: for every class, [joints] and [all_joints] follow [dir],
    the ascending order of the attribute names. The public attributes are
    strictly ascending by name, [children] keeps the strings and nodes among
    their values, [joints] lists the values bound to a string, each once per
    name and under the ascending names of [joints_motors], and [all_joints]
    lists these before the joints of the child nodes. The direct joints of
    [LeftLeg] are those of [ankle_pitch, hip_pitch, hip_roll, hip_yaw,
    knee_pitch], in this order. *)
Theorem C1_joints_in_attribute_name_order cls :
  StronglySorted (strict String.le) (public_attrs cls).*1 ∧
  children cls = (filter (λ p, is_Node p.2 ∨ is_str p.2) (public_attrs cls)).*2 ∧
  StronglySorted (strict String.le) (joints_motors cls).*1 ∧
  (∀ attr s, (attr, s) ∈ joints_motors cls ↔
             getattr cls attr = Some (PStr s) ∧ ¬ startswith_dunder attr) ∧
  joints cls = (joints_motors cls).*2 ∧
  all_joints cls = joints cls ++ concat (all_joints <$> child_nodes cls) ∧
  joints_motors LeftLeg
  = [("ankle_pitch", "L_ankle_y"); ("hip_pitch", "L_hip_y");
     ("hip_roll", "L_hip_z"); ("hip_yaw", "L_hip_x"); ("knee_pitch", "L_knee")] ∧
  joints LeftLeg = ["L_ankle_y"; "L_hip_y"; "L_hip_z"; "L_hip_x"; "L_knee"] ∧
  all_joints LeftLeg = ["L_ankle_y"; "L_hip_y"; "L_hip_z"; "L_hip_x"; "L_knee"].
Proof.
  split_and!.
  - apply public_attrs_sorted.
  - apply children_public_attrs.
  - eapply StronglySorted_sublist;
      [apply joints_motors_sublist|apply public_attrs_sorted].
  - apply elem_of_joints_motors.
  - by rewrite joints_motors_snd.
  - apply all_joints_unfold.
  - by vm_compute.
  - by vm_compute.
  - by vm_compute.
Qed.

(** C3: on every class [all_joints] returns, and its result is the direct
    joints of the class followed by the results of [all_joints] on the
    classes of the children that are nodes, in the order of [children]. *)
Theorem C3_all_joints_preorder cls :
  all_joints_rec (depth cls) cls = Some (all_joints cls) ∧
  all_joints cls = joints cls ++ concat (all_joints <$> child_nodes cls) ∧
  child_nodes cls = omap node_of (children cls).
Proof.
  split_and!; [by apply all_joints_rec_Some|apply all_joints_unfold|done].
Qed.

(** C7, as stated, fails: the joints of [Robot] are not listed in the order
    in which the bodies of [LeftLeg] and [RightLeg] bind them. *)
Lemma C7_all_joints_Robot_not_definition_order :
  ¬ (length (all_joints Robot) = 10 ∧
     all_joints Robot
     = ["L_hip_y"; "L_hip_x"; "L_hip_z"; "L_knee"; "L_ankle_y";
        "R_hip_y"; "R_hip_x"; "R_hip_z"; "R_knee"; "R_ankle_y"]).
Proof. intros [_ H]. vm_compute in H. discriminate. Qed.

(** C7, amended: [Robot.all_joints()] has length 10; the five joints of the
    left leg precede the five joints of the right leg, and the joints of
    each leg are listed in the ascending order of their attribute names
    [ankle_pitch, hip_pitch, hip_roll, hip_yaw, knee_pitch]. *)
Theorem C7_all_joints_Robot :
  all_joints Robot
  = ["L_ankle_y"; "L_hip_y"; "L_hip_z"; "L_hip_x"; "L_knee";
     "R_ankle_y"; "R_hip_y"; "R_hip_z"; "R_hip_x"; "R_knee"] ∧
  length (all_joints Robot) = 10 ∧
  all_joints Robot = joints LeftLeg ++ joints RightLeg ∧
  child_nodes Robot = [Legs] ∧ child_nodes Legs = [LeftLeg; RightLeg] ∧
  length (joints LeftLeg) = 5 ∧ length (joints RightLeg) = 5 ∧
  (joints_motors LeftLeg).*1
  = ["ankle_pitch"; "hip_pitch"; "hip_roll"; "hip_yaw"; "knee_pitch"] ∧
  (joints_motors RightLeg).*1
  = ["ankle_pitch"; "hip_pitch"; "hip_roll"; "hip_yaw"; "knee_pitch"].
Proof. split_and!; by vm_compute. Qed.

(** ** [print_joints] *)

Lemma print_joints_of_eq robot out :
  print_joints_of robot out
  = if len_eq_len_set (all_joints robot)
    then ((out +:+ Node_str robot +:+ nl)
            +:+ pretty (length (all_joints robot)) +:+ nl, inr ())
    else (out, inl (AssertionError "Duplicate joint names found!")).
Proof.
  unfold print_joints_of, py_assert, print, mbind, proc_bind.
  by destruct (len_eq_len_set (all_joints robot)).
Qed.

Lemma print_joints_of_NoDup robot out :
  NoDup (all_joints robot) →
  print_joints_of robot out
  = ((out +:+ Node_str robot +:+ nl)
       +:+ pretty (length (all_joints robot)) +:+ nl, inr ()).
Proof.
  intros Hnd%len_eq_len_set_NoDup. rewrite print_joints_of_eq.
  by destruct (len_eq_len_set (all_joints robot)).
Qed.

Lemma print_joints_of_dup robot out :
  ¬ NoDup (all_joints robot) →
  print_joints_of robot out
  = (out, inl (AssertionError "Duplicate joint names found!")).
Proof.
  rewrite <-len_eq_len_set_NoDup, print_joints_of_eq.
  by destruct (len_eq_len_set (all_joints robot)).
Qed.

(** C2: the test [len(joints) == len(set(joints))] holds exactly when the
    list has no repeated string, and for whatever class stands for [Robot],
    [print_joints] passes its [assert] exactly when [all_joints] has no
    repeated string and raises exactly when it has one. *)
Theorem C2_uniqueness_check_iff robot :
  (∀ joints, len_eq_len_set joints ↔ NoDup joints) ∧
  (∀ out, (print_joints_of robot out).2 = inr () ↔ NoDup (all_joints robot)) ∧
  (∀ out, (print_joints_of robot out).2
            = inl (AssertionError "Duplicate joint names found!")
          ↔ ¬ NoDup (all_joints robot)).
Proof.
  split_and!; [apply len_eq_len_set_NoDup|..]; intros out;
    destruct (decide (NoDup (all_joints robot))) as [Hnd|Hdup].
  - by rewrite print_joints_of_NoDup.
  - by rewrite print_joints_of_dup.
  - by rewrite print_joints_of_NoDup.
  - by rewrite print_joints_of_dup.
Qed.

(** C4, as stated, fails: on a robot with repeated joint names the failure
    of [print_joints] carries a message in which no joint name occurs. *)
Lemma C4_message_names_no_joint :
  ¬ (¬ NoDup (all_joints TwinRobot) →
     ∃ msg name,
       print_joints_of TwinRobot "" = ("", inl (AssertionError msg)) ∧
       name ∈ all_joints TwinRobot ∧
       is_Some (String.index 0 name msg)).
Proof.
  intros Hclaim. destruct Hclaim as (msg & name & Hrun & Hin & Hocc).
  - rewrite <-len_eq_len_set_NoDup. by vm_compute.
  - rewrite print_joints_of_dup in Hrun
      by (rewrite <-len_eq_len_set_NoDup; by vm_compute).
    injection Hrun as <-.
    assert (all_joints TwinRobot
            = ["L_ankle_y"; "L_hip_y"; "L_hip_z"; "L_hip_x"; "L_knee";
               "L_ankle_y"; "L_hip_y"; "L_hip_z"; "L_hip_x"; "L_knee"])
      as Hall by (by vm_compute).
    rewrite Hall in Hin. apply list_elem_of_In in Hin. simpl in Hin.
    destruct Hocc as [pos Hpos].
    repeat (destruct Hin as [<-|Hin]; [vm_compute in Hpos; discriminate Hpos|]).
    destruct Hin.
Qed.

(** C4, amended: [print_joints] tests uniqueness before it prints. If a
    joint name is repeated it writes nothing and raises [AssertionError]
    with the fixed message [Duplicate joint names found!]; the exception is
    not caught. Otherwise it prints the rendering of the robot, which exists
    for every class, and then the number of joints, and returns. *)
Theorem C4_print_joints robot out :
  (¬ NoDup (all_joints robot) →
   print_joints_of robot out
   = (out, inl (AssertionError "Duplicate joint names found!"))) ∧
  (NoDup (all_joints robot) →
   print_joints_of robot out
   = ((out +:+ Node_str robot +:+ nl)
        +:+ pretty (length (all_joints robot)) +:+ nl, inr ())) ∧
  Node_str_rec (depth robot) robot = Some (Node_str robot) ∧
  print_joints "" = (Node_str Robot +:+ nl +:+ "10" +:+ nl, inr ()).
Proof.
  split_and!.
  - apply print_joints_of_dup.
  - apply print_joints_of_NoDup.
  - by apply Node_str_rec_Some.
  - by vm_compute.
Qed.

(** C8: two calls of [all_joints] on a class, one after the other from any
    store, return two different list objects that hold the same items in
    the same order, and the second call leaves the result of the first as it
    was. The items do not depend on the fuel, once it covers the depth. *)
Theorem C8_all_joints_deterministic cls (σ : store) :
  (∃ r1 σ1 r2 σ2,
     all_joints_st (depth cls) cls σ = Some (r1, σ1) ∧
     all_joints_st (depth cls) cls σ1 = Some (r2, σ2) ∧
     r1 ≠ r2 ∧
     σ1 !! r1 = Some (all_joints cls) ∧
     σ2 !! r1 = Some (all_joints cls) ∧
     σ2 !! r2 = Some (all_joints cls)) ∧
  (∀ fuel, depth cls ≤ fuel → all_joints_rec fuel cls = Some (all_joints cls)).
Proof.
  split; [|apply all_joints_rec_Some].
  destruct (all_joints_st_returns_new (depth cls) cls (depth cls)
              (reflexivity _) (reflexivity _) σ) as [rest1 H1].
  destruct (all_joints_st_returns_new (depth cls) cls (depth cls)
              (reflexivity _) (reflexivity _) (σ ++ all_joints cls :: rest1))
    as [rest2 H2].
  eexists _, _, _, _. split_and!; [exact H1|exact H2|..].
  - rewrite length_app. simpl. lia.
  - by apply list_lookup_middle.
  - rewrite <-(assoc_L (++) σ), <-app_comm_cons. by apply list_lookup_middle.
  - by apply list_lookup_middle.
Qed.


(** ** The flat tables *)

Lemma dict_display_Some {V} (items : list (option pyval * V)) (kvs : list (string * V)) :
  Forall2 (λ item kv, item.1 = Some (PStr kv.1) ∧ item.2 = kv.2) items kvs →
  dict_display items = Some (foldl enter ∅ kvs).
Proof.
  intros Hitems. unfold dict_display. generalize (∅ : gmap string V).
  induction Hitems as [|[k v] [s w] items kvs [Hk Hv] _ IH]; intros d; [done|].
  simpl in *. subst. by rewrite <-IH.
Qed.

Lemma lookup_foldl_enter {V} (kvs : list (string * V)) (d : gmap string V) key :
  foldl enter d kvs !! key
  = match ns_lookup key kvs with Some v => Some v | None => d !! key end.
Proof.
  revert d. induction kvs as [|[k v] kvs IH]; intros d; simpl; [done|].
  rewrite IH. destruct (ns_lookup key kvs); [done|]. unfold enter. simpl.
  case_decide as Hk; [subst; by rewrite lookup_insert_eq|].
  by rewrite lookup_insert_ne.
Qed.

Lemma lookup_dict {V} (kvs : list (string * V)) key :
  foldl enter ∅ kvs !! key = ns_lookup key kvs.
Proof.
  rewrite lookup_foldl_enter, lookup_empty. by destruct (ns_lookup key kvs).
Qed.

Lemma elem_of_dom_dict {V} (kvs : list (string * V)) key :
  key ∈ dom (foldl enter ∅ kvs) ↔ key ∈ kvs.*1.
Proof. by rewrite elem_of_dom, lookup_dict, ns_lookup_is_Some. Qed.

(** The attribute references in the two dict displays yield the joint names. *)
Lemma isaac_to_mujoco_signs_eq :
  isaac_to_mujoco_signs = Some (foldl enter ∅ sign_items).
Proof.
  apply dict_display_Some. unfold sign_items.
  repeat (constructor; [split; [by vm_compute|done]|]). constructor.
Qed.

Lemma default_standing_eq :
  default_standing = Some (foldl enter ∅ standing_items).
Proof.
  apply dict_display_Some. unfold standing_items.
  repeat (constructor; [split; [by vm_compute|done]|]). constructor.
Qed.

Lemma all_joints_Robot_eq :
  all_joints Robot
  = ["L_ankle_y"; "L_hip_y"; "L_hip_z"; "L_hip_x"; "L_knee";
     "R_ankle_y"; "R_hip_y"; "R_hip_z"; "R_hip_x"; "R_knee"].
Proof. by vm_compute. Qed.

Lemma sign_keys_joints key : key ∈ sign_items.*1 ↔ key ∈ all_joints Robot.
Proof.
  rewrite all_joints_Robot_eq. split; revert key; apply Forall_forall; by_evaluation.
Qed.

Lemma standing_keys_joints key : key ∈ standing_items.*1 ↔ key ∈ all_joints Robot.
Proof.
  rewrite all_joints_Robot_eq. split; revert key; apply Forall_forall; by_evaluation.
Qed.

(** ** The modelled cross-check *)

Lemma dangling_nil names keys :
  dangling names keys = [] ↔ ∀ key, key ∈ keys → key ∈ names.
Proof.
  unfold dangling. split.
  - intros Hnil key Hkey. destruct (decide (key ∈ names)) as [|Hnot]; [done|].
    assert (key ∈ filter (λ key, key ∉ names) (elements keys)) as Hin.
    { apply list_elem_of_filter. by rewrite elem_of_elements. }
    rewrite Hnil in Hin. by apply elem_of_nil in Hin.
  - intros Hall. apply elem_of_nil_inv. intros key.
    rewrite list_elem_of_filter, elem_of_elements. intros [Hnot Hkey].
    by apply Hnot, Hall.
Qed.

(** The check passes exactly when no key is missing from the tree. *)
Lemma cross_check_ok {V W} names (m1 : gmap string V) (m2 : gmap string W) :
  cross_check names m1 m2 = inr () ↔
  (∀ key, key ∈ dom m1 → key ∈ names) ∧ (∀ key, key ∈ dom m2 → key ∈ names).
Proof.
  rewrite <-!dangling_nil. unfold cross_check.
  destruct (dangling names (dom m1)) as [|k1 l1];
    destruct (dangling names (dom m2)) as [|k2 l2]; simpl; split;
    first [by intros [? ?]|done|by split].
Qed.

(** A failure of the check names a key that is missing from the tree. *)
Lemma cross_check_fails {V W} names (m1 : gmap string V) (m2 : gmap string W) name :
  cross_check names m1 m2 = inl (DanglingReference name) →
  (name ∈ dom m1 ∨ name ∈ dom m2) ∧ name ∉ names.
Proof.
  unfold cross_check.
  destruct (dangling names (dom m1) ++ dangling names (dom m2))
    as [|k l] eqn:Hd; [done|].
  intros [= <-].
  assert (k ∈ dangling names (dom m1) ++ dangling names (dom m2)) as Hin.
  { rewrite Hd. left. }
  unfold dangling in Hin.
  rewrite elem_of_app, !list_elem_of_filter, !elem_of_elements in Hin.
  destruct Hin as [[? ?]|[? ?]]; auto.
Qed.

(** C5: the two dict displays evaluate, every key of the sign map and every
    key of the default standing pose is a joint of [Robot.all_joints()], and
    the cross-check of the specification passes on these tables. *)
Theorem C5_table_keys_are_joints :
  ∃ signs pose,
    isaac_to_mujoco_signs = Some signs ∧
    default_standing = Some pose ∧
    (∀ key, key ∈ dom signs → key ∈ all_joints Robot) ∧
    (∀ key, key ∈ dom pose → key ∈ all_joints Robot) ∧
    cross_check (all_joints Robot) signs pose = inr ().
Proof.
  exists (foldl enter ∅ sign_items), (foldl enter ∅ standing_items).
  assert (∀ key, key ∈ dom (foldl enter ∅ sign_items) → key ∈ all_joints Robot)
    as Hsigns by (intros key; by rewrite elem_of_dom_dict, sign_keys_joints).
  assert (∀ key, key ∈ dom (foldl enter ∅ standing_items)
                 → key ∈ all_joints Robot)
    as Hpose by (intros key; by rewrite elem_of_dom_dict, standing_keys_joints).
  split_and!; [apply isaac_to_mujoco_signs_eq|apply default_standing_eq|done..|].
  by apply cross_check_ok.
Qed.

(** C6: in the sign map of [Robot], the lookup of [L_hip_y] returns 1; the
    lookup of a name that is not a key, such as [nonexistent], fails and
    names it, and returns no sign; every value of the sign map is 1 or -1.
    The subscription of the dict itself behaves in the same way, with
    [KeyError]. *)
Theorem C6_sign_lookup :
  ∃ signs,
    isaac_to_mujoco_signs = Some signs ∧
    sign_for signs "L_hip_y" = inr 1%Z ∧
    sign_for signs "nonexistent" = inl (UnknownJoint "nonexistent") ∧
    (∀ name, name ∉ dom signs → sign_for signs name = inl (UnknownJoint name)) ∧
    (∀ name sign, sign_for signs name = inr sign → signs !! name = Some sign) ∧
    (∀ name sign, signs !! name = Some sign → sign = 1%Z ∨ sign = (-1)%Z) ∧
    dict_getitem signs "L_hip_y" = inr 1%Z ∧
    dict_getitem signs "nonexistent" = inl (KeyError "nonexistent").
Proof.
  exists (foldl enter ∅ sign_items).
  split; [apply isaac_to_mujoco_signs_eq|].
  unfold sign_for, dict_getitem. split_and!.
  - by rewrite lookup_dict.
  - by rewrite lookup_dict.
  - intros name Hname. apply not_elem_of_dom in Hname. by rewrite Hname.
  - intros name sign. by destruct (_ !! name); intros [= ->].
  - intros name sign. rewrite lookup_dict. intros Hin%ns_lookup_elem.
    revert name sign Hin.
    assert (Forall (λ kv, kv.2 = 1%Z ∨ kv.2 = (-1)%Z) sign_items) as Hall
      by (unfold sign_items; repeat constructor).
    rewrite Forall_forall in Hall. intros name sign Hin. apply (Hall _ Hin).
  - by rewrite lookup_dict.
  - by rewrite lookup_dict.
Qed.

(** C9: the keys of the sign map are exactly the joints of [Robot], of which
    there are 10, all different; every joint is mapped to 1, and the
    multiplication by the sign of a joint leaves every value as it is. *)
Theorem C9_signs_identity :
  ∃ signs,
    isaac_to_mujoco_signs = Some signs ∧
    dom signs = list_to_set (all_joints Robot) ∧
    size signs = 10 ∧
    length (all_joints Robot) = 10 ∧
    NoDup (all_joints Robot) ∧
    (∀ name, name ∈ all_joints Robot → signs !! name = Some 1%Z) ∧
    (∀ name sign, signs !! name = Some sign →
       sign = 1%Z ∧ ∀ x : Q, (inject_Z sign * x == x)%Q).
Proof.
  exists (foldl enter ∅ sign_items).
  assert (dom (foldl enter ∅ sign_items)
          = list_to_set (C := gset string) (all_joints Robot)) as Hdom.
  { apply set_eq. intros key.
    by rewrite elem_of_dom_dict, elem_of_list_to_set, sign_keys_joints. }
  assert (NoDup (all_joints Robot)) as Hnd
    by (rewrite all_joints_Robot_eq; by_evaluation).
  assert (∀ name sign, foldl enter ∅ sign_items !! name = Some sign → sign = 1%Z)
    as Hone.
  { intros name sign. rewrite lookup_dict. intros Hin%ns_lookup_elem.
    assert (Forall (λ kv, kv.2 = 1%Z) sign_items) as Hall
      by (unfold sign_items; repeat constructor).
    rewrite Forall_forall in Hall. apply (Hall _ Hin). }
  split_and!.
  - apply isaac_to_mujoco_signs_eq.
  - done.
  - rewrite <-size_dom, Hdom, size_list_to_set by done.
    by rewrite all_joints_Robot_eq.
  - by rewrite all_joints_Robot_eq.
  - done.
  - intros name Hname%sign_keys_joints%elem_of_dom_dict%elem_of_dom.
    destruct Hname as [sign Hsign]. by rewrite Hsign, (Hone _ _ Hsign).
  - intros name sign ->%Hone. split; [done|]. intros x. apply Qmult_1_l.
Qed.

(** C10: [default_positions()] and [default_limits()] return the empty dict;
    no key has an entry in either, and every subscription raises. *)
Theorem C10_empty_tables :
  default_positions = ∅ ∧ default_limits = ∅ ∧
  size default_positions = 0 ∧ size default_limits = 0 ∧
  (∀ key, default_positions !! key = None ∧
          dict_getitem default_positions key = inl (KeyError key)) ∧
  (∀ key, default_limits !! key = None ∧
          dict_getitem default_limits key = inl (KeyError key)).
Proof.
  unfold default_positions, default_limits, dict_getitem.
  split_and!; try done; intros key; by rewrite lookup_empty.
Qed.

(** * Further properties *)

(** ** Children, joints and the class body *)

Lemma joints_children cls : joints cls = omap str_of (children cls).
Proof.
  unfold joints, children.
  induction ((public_attrs cls).*2) as [|v vs IH]; [done|].
  rewrite filter_cons. destruct v; simpl;
    repeat case_decide; simpl; try (f_equal; exact IH); try exact IH; tauto.
Qed.

Lemma length_children cls :
  length (children cls) = length (joints cls) + length (child_nodes cls).
Proof.
  rewrite joints_children. unfold child_nodes.
  pose proof (children_kinds cls) as Hkinds.
  induction Hkinds as [|v vs Hv _ IH]; [done|].
  destruct v; simpl in Hv; try tauto;
    cbn [omap list_omap str_of node_of length]; lia.
Qed.

(** X1: [children] returns strings and nodes and nothing else; the direct
    joints are the strings among the children, in the same order, and each
    child is either a direct joint or a child node. *)
Theorem X1_children_partition cls :
  Forall (λ v, (∃ s, v = PStr s) ∨ (∃ c, v = PInst c)) (children cls) ∧
  joints cls = omap str_of (children cls) ∧
  length (children cls) = length (joints cls) + length (child_nodes cls).
Proof.
  split_and!; [|apply joints_children|apply length_children].
  eapply Forall_impl; [apply children_kinds|].
  intros v. destruct v; simpl; intros [?|?]; try done; eauto.
Qed.




(** ** The order of the class body *)

Lemma ns_lookup_NoDup {V} attr (ns : list (string * V)) v :
  NoDup ns.*1 → ns_lookup attr ns = Some v ↔ (attr, v) ∈ ns.
Proof.
  intros Hnd. split; [apply ns_lookup_elem|].
  induction ns as [|[k w] rest IH]; [by intros ?%elem_of_nil|].
  simpl in *. apply NoDup_cons in Hnd as [Hk Hnd].
  intros [[= -> ->]|Hin]%elem_of_cons.
  - destruct (ns_lookup k rest) as [u|] eqn:Hu.
    + destruct Hk. apply list_elem_of_fmap. exists (k, u).
      split; [done|]. by apply ns_lookup_elem.
    + by rewrite decide_True.
  - by rewrite (IH Hnd Hin).
Qed.

Lemma ns_lookup_Permutation {V} attr (ns ns' : list (string * V)) :
  NoDup ns.*1 → ns ≡ₚ ns' → ns_lookup attr ns = ns_lookup attr ns'.
Proof.
  intros Hnd Hperm.
  assert (NoDup ns'.*1) as Hnd' by (by rewrite <-Hperm).
  destruct (ns_lookup attr ns) as [v|] eqn:Hv.
  - symmetry. apply ns_lookup_NoDup; [done|]. rewrite <-Hperm.
    by apply ns_lookup_NoDup.
  - destruct (ns_lookup attr ns') as [v'|] eqn:Hv'; [|done].
    apply ns_lookup_NoDup in Hv'; [|done]. rewrite <-Hperm in Hv'.
    apply ns_lookup_NoDup in Hv'; [|done]. congruence.
Qed.

Lemma dir_getattr_ext cls cls' :
  (∀ attr, getattr cls attr = getattr cls' attr) → dir cls = dir cls'.
Proof.
  intros Hext.
  apply (StronglySorted_unique_strong (strict String.le));
    [|apply dir_sorted..|].
  - intros x1 x2 _ _ [_ Hne] [Hle _]. by destruct Hne.
  - apply NoDup_Permutation; [apply dir_NoDup..|].
    intros attr. by rewrite !elem_of_dir, Hext.
Qed.

Lemma public_attrs_getattr_ext cls cls' :
  (∀ attr, getattr cls attr = getattr cls' attr) →
  public_attrs cls = public_attrs cls'.
Proof.
  intros Hext. unfold public_attrs. rewrite (dir_getattr_ext cls cls') by done.
  apply list_omap_ext, Forall2_same_length_lookup. split; [done|].
  intros i attr attr' Hi Hi'. assert (attr = attr') as -> by congruence.
  by rewrite Hext.
Qed.

Lemma Node_str_unfold cls :
  Node_str cls
  = "[" +:+ class_name cls +:+ "]" +:+
    indent (nl +:+ String.concat nl (child_text Node_str <$> children cls)) "  ".
Proof.
  unfold Node_str at 1.
  by rewrite (Node_str_rec_unfold (depth cls) cls (depth cls)).
Qed.

(** X3: the order in which a class body binds its names has no effect. If
    the body binds every name once, a class with the same bindings in any
    other order has the same [joints_motors], [joints] and [children], the
    same [all_joints] and the same rendering. *)
Theorem X3_definition_order_irrelevant name body body' :
  NoDup body.*1 → body ≡ₚ body' →
  joints_motors (PyClass name body) = joints_motors (PyClass name body') ∧
  joints (PyClass name body) = joints (PyClass name body') ∧
  children (PyClass name body) = children (PyClass name body') ∧
  all_joints (PyClass name body) = all_joints (PyClass name body') ∧
  Node_str (PyClass name body) = Node_str (PyClass name body').
Proof.
  intros Hnd Hperm.
  assert (public_attrs (PyClass name body) = public_attrs (PyClass name body'))
    as Hpub.
  { apply public_attrs_getattr_ext. intros attr. unfold getattr. simpl.
    by rewrite (ns_lookup_Permutation attr body body'). }
  assert (children (PyClass name body) = children (PyClass name body'))
    as Hch by (unfold children; by rewrite Hpub).
  assert (joints (PyClass name body) = joints (PyClass name body'))
    as Hj by (unfold joints; by rewrite Hpub).
  split_and!; [unfold joints_motors; by rewrite Hpub|done|done|..].
  - rewrite !all_joints_unfold. unfold child_nodes. by rewrite Hj, Hch.
  - rewrite !Node_str_unfold. by rewrite Hch.
Qed.

Lemma X3_witness :
  NoDup (class_body LeftLeg).*1 ∧
  class_body LeftLeg ≡ₚ reverse (class_body LeftLeg) ∧
  joints (PyClass "LeftLeg" (class_body LeftLeg))
  = joints (PyClass "LeftLeg" (reverse (class_body LeftLeg))).
Proof.
  assert (NoDup (class_body LeftLeg).*1) as Hnd by by_evaluation.
  assert (class_body LeftLeg ≡ₚ reverse (class_body LeftLeg)) as Hperm
    by (symmetry; apply reverse_Permutation).
  split_and!; [done|done|].
  apply (X3_definition_order_irrelevant "LeftLeg" _ _ Hnd Hperm).
Defined.

(** ** The joints of the tree *)

Lemma elem_of_concat {A} (x : A) (ls : list (list A)) :
  x ∈ concat ls ↔ ∃ l, l ∈ ls ∧ x ∈ l.
Proof.
  induction ls as [|l ls IH]; simpl.
  - split; [by intros ?%elem_of_nil|by intros (l & ?%elem_of_nil & _)].
  - rewrite elem_of_app, IH. split.
    + intros [?|(l' & ? & ?)]; [exists l|exists l']; (split; [|done]);
        by constructor.
    + intros (l' & [->|?]%elem_of_cons & ?); eauto.
Qed.

Lemma elem_of_all_joints_step cls s :
  s ∈ all_joints cls ↔
  s ∈ joints cls ∨ ∃ c, c ∈ child_nodes cls ∧ s ∈ all_joints c.
Proof.
  rewrite all_joints_unfold at 1. rewrite elem_of_app, elem_of_concat.
  setoid_rewrite list_elem_of_fmap. split.
  - intros [?|(l & (c & -> & Hc) & Hs)]; eauto.
  - intros [?|(c & Hc & Hs)]; eauto 6.
Qed.

(** X4: a name is in [all_joints] exactly when it is a direct joint of the
    class or of the class of a node below it: no joint of the tree is left
    out and nothing else is listed. *)
Theorem X4_all_joints_membership cls s :
  s ∈ all_joints cls ↔ ∃ c, descendant cls c ∧ s ∈ joints c.
Proof.
  split.
  - remember (depth cls) as n eqn:Hn. revert cls Hn s.
    induction (lt_wf n) as [n _ IH]. intros cls -> s.
    intros [Hs|(c & Hc & Hs)]%elem_of_all_joints_step.
    + exists cls. split; [constructor|done].
    + destruct (IH (depth c)) with (cls := c) (s := s) as (c' & Hdesc & Hs');
        [by apply depth_child_lt, elem_of_child_nodes|done|done|].
      exists c'. split; [by econstructor|done].
  - intros (c & Hdesc & Hs). induction Hdesc as [cls|cls c c' Hc _ IH].
    + apply elem_of_all_joints_step. by left.
    + apply elem_of_all_joints_step. right. exists c. split; [done|by apply IH].
Qed.

(** ** Repeated names *)

Lemma print_joints_of_returns robot out :
  (print_joints_of robot out).2 = inr () ↔ NoDup (all_joints robot).
Proof.
  destruct (decide (NoDup (all_joints robot))) as [Hnd|Hdup].
  - by rewrite print_joints_of_NoDup.
  - by rewrite print_joints_of_dup.
Qed.

Lemma sublist_concat {A} (l : list A) ls : l ∈ ls → l `sublist_of` concat ls.
Proof.
  induction 1 as [l ls|l l' ls _ IH]; simpl.
  - by apply sublist_inserts_r.
  - by apply sublist_inserts_l.
Qed.

Lemma descendant_NoDup cls c :
  descendant cls c → NoDup (all_joints cls) → NoDup (all_joints c).
Proof.
  induction 1 as [cls|cls c c' Hc _ IH]; [done|].
  intros Hnd. apply IH. rewrite all_joints_unfold in Hnd.
  apply NoDup_app in Hnd as (_ & _ & Hnd).
  eapply sublist_NoDup; [exact Hnd|].
  apply sublist_concat, list_elem_of_fmap. by exists c.
Qed.

(** X5: the uniqueness test is inherited by the nodes of the tree: if
    [print_joints] returns for a robot, it returns for the class of every
    node below it. A repeated name inside any subtree is therefore found
    from the root. *)
Theorem X5_uniqueness_hereditary robot c out out' :
  descendant robot c →
  (print_joints_of robot out).2 = inr () →
  (print_joints_of c out').2 = inr ().
Proof.
  rewrite !print_joints_of_returns. apply descendant_NoDup.
Qed.

Lemma descendant_Robot_LeftLeg : descendant Robot LeftLeg.
Proof.
  apply (descendant_step Robot Legs).
  { assert (child_nodes Robot = [Legs]) as -> by (by vm_compute). left. }
  apply (descendant_step Legs LeftLeg); [|constructor].
  assert (child_nodes Legs = [LeftLeg; RightLeg]) as -> by (by vm_compute). left.
Qed.

Lemma X5_witness :
  descendant Robot LeftLeg ∧
  (print_joints_of Robot "").2 = inr () ∧
  (print_joints_of LeftLeg "").2 = inr ().
Proof.
  assert ((print_joints_of Robot "").2 = inr ()) as Hrobot by (by vm_compute).
  split_and!; [apply descendant_Robot_LeftLeg|done|].
  apply (X5_uniqueness_hereditary Robot LeftLeg "" ""
           descendant_Robot_LeftLeg Hrobot).
Defined.

Lemma NoDup_concat_lookup {A} (ls : list (list A)) i j l1 l2 x :
  NoDup (concat ls) → i < j → ls !! i = Some l1 → ls !! j = Some l2 →
  x ∈ l1 → x ∉ l2.
Proof.
  revert i j. induction ls as [|l ls IH]; intros i j Hnd Hij Hi Hj Hx; [done|].
  simpl in Hnd. apply NoDup_app in Hnd as (_ & Hdisj & Hnd).
  destruct j as [|j]; [lia|]. destruct i as [|i]; simpl in *.
  - injection Hi as ->. intros Hx2. apply (Hdisj x Hx).
    apply elem_of_concat. exists l2. split; [|done].
    by eapply list_elem_of_lookup_2.
  - apply (IH i j); [done|lia|done..].
Qed.

(** X6: if one name is among the joints of two different child nodes of a
    robot, [print_joints] raises and prints nothing. *)
Theorem X6_shared_name_is_rejected robot i j c1 c2 s out :
  i ≠ j →
  child_nodes robot !! i = Some c1 → child_nodes robot !! j = Some c2 →
  s ∈ all_joints c1 → s ∈ all_joints c2 →
  print_joints_of robot out
  = (out, inl (AssertionError "Duplicate joint names found!")).
Proof.
  intros Hij Hi Hj Hs1 Hs2. apply print_joints_of_dup.
  rewrite all_joints_unfold. intros (_ & _ & Hnd)%NoDup_app.
  assert (i < j ∨ j < i) as [Hlt|Hlt] by lia.
  - eapply (NoDup_concat_lookup _ i j); [exact Hnd|done| | |exact Hs1|exact Hs2];
      by rewrite list_lookup_fmap, ?Hi, ?Hj.
  - eapply (NoDup_concat_lookup _ j i); [exact Hnd|done| | |exact Hs2|exact Hs1];
      by rewrite list_lookup_fmap, ?Hi, ?Hj.
Qed.

Lemma X6_witness :
  0 ≠ 1 ∧
  child_nodes TwinLegs !! 0 = Some LeftLeg ∧
  child_nodes TwinLegs !! 1 = Some LeftLeg ∧
  "L_knee" ∈ all_joints LeftLeg ∧
  print_joints_of TwinLegs ""
  = ("", inl (AssertionError "Duplicate joint names found!")).
Proof.
  assert (child_nodes TwinLegs !! 0 = Some LeftLeg) as H0 by (by vm_compute).
  assert (child_nodes TwinLegs !! 1 = Some LeftLeg) as H1 by (by vm_compute).
  assert ("L_knee" ∈ all_joints LeftLeg) as Hs by by_evaluation.
  split_and!; [lia|done|done|done|].
  apply (X6_shared_name_is_rejected TwinLegs 0 1 LeftLeg LeftLeg "L_knee" "");
    [lia|done..].
Defined.

Lemma NoDup_fmap_inj_on {A B} (f : A → B) l x y :
  NoDup (f <$> l) → x ∈ l → y ∈ l → f x = f y → x = y.
Proof.
  induction l as [|z l IH]; [by intros _ ?%elem_of_nil|].
  rewrite fmap_cons, NoDup_cons, list_elem_of_fmap.
  intros [Hz Hnd] [->|Hx]%elem_of_cons [->|Hy]%elem_of_cons Hf; [done|..].
  - destruct Hz. by exists y.
  - destruct Hz. exists x. by split.
  - by apply IH.
Qed.

(** X7: if a node of the tree binds one joint name under two of its
    attributes, [print_joints] on the robot raises and prints nothing. *)
Theorem X7_name_bound_twice_is_rejected robot c attr attr' s out :
  descendant robot c →
  attr ≠ attr' →
  (attr, s) ∈ joints_motors c → (attr', s) ∈ joints_motors c →
  print_joints_of robot out
  = (out, inl (AssertionError "Duplicate joint names found!")).
Proof.
  intros Hdesc Hne Hin Hin'. apply print_joints_of_dup.
  intros Hnd%(descendant_NoDup _ c Hdesc).
  rewrite all_joints_unfold in Hnd. apply NoDup_app in Hnd as (Hnd & _ & _).
  rewrite <-joints_motors_snd in Hnd.
  assert ((attr, s) = (attr', s)) as [= ?]; [|done].
  by apply (NoDup_fmap_inj_on snd (joints_motors c)).
Qed.

Lemma X7_witness :
  descendant Clubfoot Clubfoot ∧
  "ankle_pitch" ≠ "knee_pitch" ∧
  ("ankle_pitch", "knee") ∈ joints_motors Clubfoot ∧
  ("knee_pitch", "knee") ∈ joints_motors Clubfoot ∧
  print_joints_of Clubfoot ""
  = ("", inl (AssertionError "Duplicate joint names found!")).
Proof.
  assert (("ankle_pitch", "knee") ∈ joints_motors Clubfoot) as H1
    by by_evaluation.
  assert (("knee_pitch", "knee") ∈ joints_motors Clubfoot) as H2
    by by_evaluation.
  split_and!; [constructor|done|done|done|].
  apply (X7_name_bound_twice_is_rejected Clubfoot Clubfoot
           "ankle_pitch" "knee_pitch" "knee" ""); [constructor|done..].
Defined.

(** ** Strings and lines *)

Lemma app_String a (s t : string) : String a s +:+ t = String a (s +:+ t).
Proof. done. Qed.

Lemma app_nil_r_str (s : string) : s +:+ "" = s.
Proof. induction s as [|a s IH]; [done|]. by rewrite app_String, IH. Qed.

Lemma app_assoc_str (s t u : string) : (s +:+ t) +:+ u = s +:+ t +:+ u.
Proof. induction s as [|a s IH]; [done|]. by rewrite !app_String, IH. Qed.

Lemma length_app_str (s t : string) :
  String.length (s +:+ t) = String.length s + String.length t.
Proof. induction s as [|a s IH]; [done|]. rewrite app_String. simpl. lia. Qed.

Lemma concat_empty_cons (x : string) xs :
  String.concat "" (x :: xs) = x +:+ String.concat "" xs.
Proof. destruct xs; simpl; [by rewrite app_nil_r_str|done]. Qed.

(** The two ways in which a line ends at a line break. *)
Lemma splitlines_from_linebreak line a rest :
  is_linebreak a →
  (∃ rest', a = "013"%char ∧ rest = String "010" rest' ∧
            splitlines_from line (String a rest)
            = (line +:+ String a nl) :: splitlines_from "" rest') ∨
  splitlines_from line (String a rest)
  = (line +:+ String a "") :: splitlines_from "" rest.
Proof.
  intros Ha.
  destruct a as [[] [] [] [] [] [] [] []]; try (by destruct Ha);
    try (right; reflexivity).
  destruct rest as [|b rest']; [right; reflexivity|].
  destruct b as [[] [] [] [] [] [] [] []]; try (right; reflexivity).
  left. by exists rest'.
Qed.

Lemma splitlines_from_other line a rest :
  ¬ is_linebreak a →
  splitlines_from line (String a rest)
  = splitlines_from (line +:+ String a "") rest.
Proof. intros Ha. simpl. by destruct (is_linebreak a). Qed.

Lemma splitlines_from_concat n text line :
  String.length text ≤ n →
  String.concat "" (splitlines_from line text) = line +:+ text.
Proof.
  revert text line. induction n as [|n IH]; intros text line Hn.
  { destruct text; simpl in *; [|lia].
    case_decide; subst; simpl; by rewrite ?app_nil_r_str. }
  destruct text as [|a rest]; simpl in Hn.
  { simpl. case_decide; subst; simpl; by rewrite ?app_nil_r_str. }
  destruct (decide (is_linebreak a)) as [Ha|Ha].
  - destruct (splitlines_from_linebreak line a rest Ha)
      as [(rest' & -> & -> & ->)| ->]; rewrite concat_empty_cons.
    + rewrite IH by (simpl in Hn; lia). by rewrite app_assoc_str.
    + rewrite IH by lia. by rewrite app_assoc_str.
  - rewrite splitlines_from_other by done. rewrite IH by lia.
    by rewrite app_assoc_str.
Qed.

Lemma concat_empty_length (ls : list string) :
  String.length (String.concat "" ls) = sum_list (String.length <$> ls).
Proof.
  induction ls as [|l ls IH]; [done|].
  rewrite concat_empty_cons, length_app_str, IH. done.
Qed.

(** X8: [splitlines(True)] loses nothing, joining the lines gives the text
    back. Hence [indent] leaves the empty text empty, is the identity for
    the empty prefix, and in general lengthens the text by one prefix for
    each line that is not blank. *)
Theorem X8_indent_keeps_the_text :
  (∀ text, String.concat "" (splitlines_keepends text) = text) ∧
  (∀ prefix, indent "" prefix = "") ∧
  (∀ text, indent text "" = text) ∧
  (∀ text prefix,
     String.length (indent text prefix)
     = String.length text
       + String.length prefix
         * length (filter (λ line, strip_nonempty line) (splitlines_keepends text))).
Proof.
  assert (∀ text, String.concat "" (splitlines_keepends text) = text) as Hjoin.
  { intros text. unfold splitlines_keepends.
    by rewrite (splitlines_from_concat (String.length text)). }
  split_and!; [done|done|..].
  - intros text. unfold indent. rewrite <-(Hjoin text) at 2. f_equal.
    rewrite <-(list_fmap_id (splitlines_keepends text)) at 2.
    apply list_fmap_ext. intros _ line _. by destruct (strip_nonempty line).
  - intros text prefix. unfold indent.
    rewrite <-(Hjoin text) at 2. rewrite !concat_empty_length.
    change (map ?f ?l) with (f <$> l).
    induction (splitlines_keepends text) as [|line ls IH]; [simpl; lia|].
    rewrite !fmap_cons, filter_cons. simpl.
    destruct (strip_nonempty line); simpl.
    + rewrite length_app_str. lia.
    + lia.
Qed.

(** ** A class without children *)

(** X9: a class that binds neither a string nor a node under a public name
    has no joints; it is rendered as its name in brackets followed by a line
    feed, and [print_joints] passes the test and prints this rendering, an
    empty line and the count 0. *)
Theorem X9_class_without_children cls out :
  children cls = [] →
  all_joints cls = [] ∧
  Node_str cls = "[" +:+ class_name cls +:+ "]" +:+ nl ∧
  print_joints_of cls out
  = ((out +:+ ("[" +:+ class_name cls +:+ "]" +:+ nl) +:+ nl) +:+ "0" +:+ nl,
     inr ()).
Proof.
  intros Hch.
  assert (all_joints cls = []) as Hall.
  { rewrite all_joints_unfold, joints_children. unfold child_nodes.
    by rewrite Hch. }
  assert (Node_str cls = "[" +:+ class_name cls +:+ "]" +:+ nl) as Hstr.
  { rewrite Node_str_unfold, Hch. do 2 f_equal. }
  split_and!; [done|done|].
  rewrite print_joints_of_NoDup by (rewrite Hall; constructor).
  by rewrite Hall, Hstr.
Qed.

Lemma X9_witness :
  children Legless = [] ∧
  print_joints_of Legless "" = ("[Robot]" +:+ nl +:+ nl +:+ "0" +:+ nl, inr ()).
Proof.
  assert (children Legless = []) as Hch by (by vm_compute).
  split; [done|].
  apply (X9_class_without_children Legless "" Hch).
Defined.

(** ** The lines of the rendering *)

Lemma strip_nonempty_String a s :
  strip_nonempty (String a s) = negb (isspace a) || strip_nonempty s.
Proof. done. Qed.

Lemma strip_nonempty_app s t :
  strip_nonempty (s +:+ t) = strip_nonempty s || strip_nonempty t.
Proof.
  induction s as [|a s IH]; [done|].
  by rewrite app_String, !strip_nonempty_String, IH, orb_assoc.
Qed.

Lemma no_linebreak_app s t :
  no_linebreak (s +:+ t) = no_linebreak s && no_linebreak t.
Proof.
  induction s as [|a s IH]; [done|].
  rewrite app_String. simpl. by rewrite IH, andb_assoc.
Qed.

Lemma splitlines_from_line l acc rest :
  no_linebreak l →
  splitlines_from acc (l +:+ nl +:+ rest)
  = (acc +:+ l +:+ nl) :: splitlines_from "" rest.
Proof.
  revert acc. induction l as [|c l IH]; intros acc Hl; [done|].
  simpl in Hl. apply andb_True in Hl as [Hc Hl]. apply negb_True in Hc.
  rewrite app_String, splitlines_from_other by done.
  rewrite IH by done. by rewrite app_assoc_str.
Qed.

Lemma splitlines_from_last l acc :
  no_linebreak l → acc +:+ l ≠ "" → splitlines_from acc l = [acc +:+ l].
Proof.
  revert acc. induction l as [|c l IH]; intros acc Hl Hne.
  - rewrite app_nil_r_str in *. simpl. by rewrite decide_False.
  - simpl in Hl. apply andb_True in Hl as [Hc Hl]. apply negb_True in Hc.
    rewrite splitlines_from_other by done.
    rewrite IH; rewrite ?app_assoc_str; done.
Qed.

Lemma plain_line_nonempty l : plain_line l → l ≠ "".
Proof. by intros [_ Hl] ->. Qed.

Lemma join_cons_cons sep (x y : string) l :
  String.concat sep (x :: y :: l) = x +:+ sep +:+ String.concat sep (y :: l).
Proof. done. Qed.

Lemma join_app sep (l1 l2 : list string) :
  l1 ≠ [] → l2 ≠ [] →
  String.concat sep (l1 ++ l2)
  = String.concat sep l1 +:+ sep +:+ String.concat sep l2.
Proof.
  intros Hl1 Hl2. induction l1 as [|x [|y l1] IH]; [done|..].
  - destruct l2; [done|]. done.
  - rewrite <-!app_comm_cons, !join_cons_cons, app_comm_cons, IH by done.
    by rewrite !app_assoc_str.
Qed.

Lemma join_concat (lss : list (list string)) :
  Forall (λ ls, ls ≠ []) lss →
  String.concat nl (String.concat nl <$> lss) = String.concat nl (concat lss).
Proof.
  induction 1 as [|ls [|ls2 lss] Hls Hlss IH]; [done|..].
  - simpl. by rewrite app_nil_r.
  - rewrite !fmap_cons, join_cons_cons, <-fmap_cons, IH.
    change (concat (ls :: ls2 :: lss)) with (ls ++ concat (ls2 :: lss)).
    rewrite (join_app nl ls (concat (ls2 :: lss))); [done|done|].
    apply Forall_cons in Hlss as [Hls2 _]. simpl. by destruct ls2.
Qed.

Lemma indent_joined_lines prefix (ls : list string) :
  ls ≠ [] → Forall plain_line ls →
  indent (nl +:+ String.concat nl ls) prefix
  = nl +:+ String.concat nl (String.append prefix <$> ls).
Proof.
  intros Hne Hls. unfold indent, splitlines_keepends.
  change (nl +:+ String.concat nl ls) with ("" +:+ nl +:+ String.concat nl ls).
  rewrite splitlines_from_line by done.
  change (map ?f ?l) with (f <$> l).
  rewrite fmap_cons, concat_empty_cons. f_equal.
  clear Hne. induction Hls as [|l [|l2 ls] Hl Hls IH]; [done|..].
  - pose proof (plain_line_nonempty _ Hl). destruct Hl as [Hl1 Hl2].
    cbn [String.concat]. rewrite splitlines_from_last by done.
    change ("" +:+ l) with l. simpl. by destruct (strip_nonempty l).
  - destruct Hl as [Hl1 Hl2].
    rewrite join_cons_cons, splitlines_from_line by done.
    change ("" +:+ l +:+ nl) with (l +:+ nl).
    assert (String.concat nl (String.append prefix <$> l :: l2 :: ls)
            = (prefix +:+ l) +:+ nl
                +:+ String.concat nl (String.append prefix <$> l2 :: ls))
      as -> by done.
    rewrite fmap_cons, concat_empty_cons, IH.
    rewrite strip_nonempty_app. destruct (strip_nonempty l); [|done].
    simpl. by rewrite !app_assoc_str.
Qed.

Lemma Node_lines_rec_unfold n cls fuel :
  depth cls ≤ n → depth cls ≤ fuel →
  Node_lines_rec fuel cls
  = ("[" +:+ class_name cls +:+ "]")
      :: (String.append "  "
            <$> concat (child_lines Node_lines <$> children cls)).
Proof.
  revert cls fuel. induction n as [|n IH]; intros cls fuel Hn Hfuel.
  { pose proof (depth_pos cls). lia. }
  destruct fuel as [|fuel]; [pose proof (depth_pos cls); lia|].
  simpl. do 3 f_equal. apply list_fmap_ext. intros _ v Hv%list_elem_of_lookup_2.
  destruct v as [s|c| | | | |]; try done. simpl. apply depth_child_lt in Hv.
  unfold Node_lines. rewrite (IH c (depth c)) by lia. apply IH; lia.
Qed.

Lemma Node_lines_unfold cls :
  Node_lines cls
  = ("[" +:+ class_name cls +:+ "]")
      :: (String.append "  "
            <$> concat (child_lines Node_lines <$> children cls)).
Proof. by apply (Node_lines_rec_unfold (depth cls)). Qed.

Lemma descendant_plain_tree cls c :
  descendant cls c → plain_tree cls → plain_tree c.
Proof.
  intros Hdesc Hplain c' Hc'. apply Hplain. clear Hplain.
  induction Hdesc as [|cls c1 c2 Hc1 _ IH]; [done|].
  econstructor; [done|]. by apply IH.
Qed.

Lemma Node_str_lines n cls :
  depth cls ≤ n → plain_tree cls →
  Node_str cls = String.concat nl (Node_lines cls) ∧
  Forall plain_line (Node_lines cls).
Proof.
  revert cls. induction n as [|n IH]; intros cls Hn Hplain.
  { pose proof (depth_pos cls). lia. }
  destruct (Hplain cls (descendant_refl cls)) as (Hch & Hname & Hjoints).
  assert (Forall (λ v, child_text Node_str v
                       = String.concat nl (child_lines Node_lines v) ∧
                       child_lines Node_lines v ≠ [] ∧
                       Forall plain_line (child_lines Node_lines v))
                 (children cls)) as Hkids.
  { apply Forall_forall. intros v Hv.
    pose proof Hv as [Hkind _]%elem_of_children.
    destruct v as [s|c| | | | |]; simpl in Hkind; try tauto; simpl.
    - split_and!; [done|done|]. constructor; [|constructor].
      rewrite Forall_forall in Hjoints. apply Hjoints.
      rewrite joints_children, list_elem_of_omap. by exists (PStr s).
    - destruct (IH c) as [Hstr Hlines].
      { apply depth_child_lt in Hv. lia. }
      { eapply descendant_plain_tree; [|done].
        econstructor; [by apply elem_of_child_nodes|constructor]. }
      split_and!; [done| |done]. by rewrite Node_lines_unfold. }
  assert (child_text Node_str <$> children cls
          = String.concat nl <$> (child_lines Node_lines <$> children cls))
    as Htexts.
  { rewrite <-list_fmap_compose. apply list_fmap_ext.
    intros _ v Hv%list_elem_of_lookup_2. rewrite Forall_forall in Hkids.
    by apply Hkids. }
  assert (Forall (λ ls, ls ≠ []) (child_lines Node_lines <$> children cls))
    as Hnonempty.
  { apply Forall_fmap. eapply Forall_impl; [exact Hkids|]. by intros v (_ & ? & _). }
  assert (Forall plain_line (concat (child_lines Node_lines <$> children cls)))
    as Hall.
  { apply Forall_forall. intros l (ls & (v & -> & Hv)%list_elem_of_fmap & Hl)%elem_of_concat.
    rewrite Forall_forall in Hkids. destruct (Hkids v Hv) as (_ & _ & Hls).
    rewrite Forall_forall in Hls. by apply Hls. }
  assert (concat (child_lines Node_lines <$> children cls) ≠ []) as Hne.
  { destruct (children cls) as [|v vs]; [done|].
    apply Forall_cons in Hkids as [(_ & Hv & _) _]. simpl.
    by destruct (child_lines Node_lines v). }
  rewrite Node_str_unfold, Node_lines_unfold, Htexts, join_concat by done.
  rewrite indent_joined_lines by done. split.
  - destruct (concat (child_lines Node_lines <$> children cls)); [done|].
    rewrite fmap_cons, join_cons_cons. by rewrite !app_assoc_str.
  - constructor.
    + split.
      * rewrite !no_linebreak_app. simpl. by rewrite andb_true_r.
      * done.
    + apply Forall_fmap. eapply Forall_impl; [exact Hall|].
      intros l [Hl1 Hl2]. split; simpl.
      * by rewrite no_linebreak_app.
      * rewrite strip_nonempty_app. by destruct (strip_nonempty l).
Qed.

(** X10: if every node of the tree has a child and every class name and
    joint name fills one line, the rendering is the lines of the tree joined
    by line feeds: the name of the class in brackets, and below it the lines
    of its children, two columns to the right for each level. *)
Theorem X10_rendering_lines cls :
  plain_tree cls →
  Node_str cls = String.concat nl (Node_lines cls) ∧
  Node_lines cls
  = ("[" +:+ class_name cls +:+ "]")
      :: (String.append "  "
            <$> concat (child_lines Node_lines <$> children cls)) ∧
  Forall plain_line (Node_lines cls).
Proof.
  intros Hplain.
  destruct (Node_str_lines (depth cls) cls (reflexivity _) Hplain) as [? ?].
  split_and!; [done|apply Node_lines_unfold|done].
Qed.

Lemma descendant_Robot_inv c :
  descendant Robot c → c = Robot ∨ c = Legs ∨ c = LeftLeg ∨ c = RightLeg.
Proof.
  assert (child_nodes Robot = [Legs]) as HR by (by vm_compute).
  assert (child_nodes Legs = [LeftLeg; RightLeg]) as HL by (by vm_compute).
  assert (child_nodes LeftLeg = []) as Hl by (by vm_compute).
  assert (child_nodes RightLeg = []) as Hr by (by vm_compute).
  inversion 1 as [|? c1 ? Hc1 Hd1]; subst; [by left|].
  rewrite HR in Hc1. apply list_elem_of_singleton in Hc1 as ->.
  inversion Hd1 as [|? c2 ? Hc2 Hd2]; subst; [by right; left|].
  rewrite HL in Hc2.
  apply elem_of_cons in Hc2 as [->|Hc2%list_elem_of_singleton].
  - inversion Hd2 as [|? c3 ? Hc3 _]; subst; [by right; right; left|].
    rewrite Hl in Hc3. by apply elem_of_nil in Hc3.
  - subst c2. inversion Hd2 as [|? c3 ? Hc3 _]; subst; [by right; right; right|].
    rewrite Hr in Hc3. by apply elem_of_nil in Hc3.
Qed.

Lemma plain_tree_Robot : plain_tree Robot.
Proof.
  intros c [->|[->|[->| ->]]]%descendant_Robot_inv;
    (split_and!; [by vm_compute|by vm_compute|by_evaluation]).
Qed.

Lemma X10_witness :
  plain_tree Robot ∧
  Node_str Robot = String.concat nl (Node_lines Robot) ∧
  Node_lines Robot
  = [ "[Robot]"; "  [Legs]"; "    [LeftLeg]";
      "      L_ankle_y"; "      L_hip_y"; "      L_hip_z"; "      L_hip_x";
      "      L_knee"; "    [RightLeg]";
      "      R_ankle_y"; "      R_hip_y"; "      R_hip_z"; "      R_hip_x";
      "      R_knee" ].
Proof.
  split_and!; [apply plain_tree_Robot| |by vm_compute].
  apply (X10_rendering_lines Robot plain_tree_Robot).
Defined.

(** ** Dict displays *)




(** ** The tables and the tree *)

Lemma class_table_eq (table : option (gmap string Q)) (kvs : list (string * Q)) :
  table = dict_display ((λ kv, (Some (PStr kv.1), kv.2)) <$> kvs) →
  table = Some (foldl enter ∅ kvs).
Proof.
  intros ->. apply dict_display_Some.
  induction kvs as [|kv kvs IH]; constructor; done.
Qed.

(** X12: the tables [stiffness], [damping], [effort] and [velocity] have the
    same keys. Every joint of [Robot.all_joints()] is one of these keys
    behind the side prefix [L_] or [R_], and every key is used by a joint of
    each side; every joint name contains a key of [friction]. *)
Theorem X12_class_tables_cover_joints :
  ∃ kp kd eff vel fr,
    stiffness = Some kp ∧ damping = Some kd ∧ effort = Some eff ∧
    velocity = Some vel ∧ friction = Some fr ∧
    (∀ key, key ∈ dom kp ↔ key ∈ class_keys) ∧
    dom kd = dom kp ∧ dom eff = dom kp ∧ dom vel = dom kp ∧
    (∀ key, key ∈ dom fr ↔ key ∈ friction_keys) ∧
    (∀ joint, joint ∈ all_joints Robot →
       ∃ key, key ∈ dom kp ∧ (joint = "L_" +:+ key ∨ joint = "R_" +:+ key)) ∧
    (∀ key, key ∈ dom kp →
       "L_" +:+ key ∈ all_joints Robot ∧ "R_" +:+ key ∈ all_joints Robot) ∧
    (∀ joint, joint ∈ all_joints Robot →
       ∃ key, key ∈ dom fr ∧ is_Some (String.index 0 key joint)).
Proof.
  eexists _, _, _, _, _.
  split; [by apply (class_table_eq stiffness
            [("hip_y", 150%Q); ("hip_x", 150%Q); ("hip_z", 100%Q);
             ("knee", 150%Q); ("ankle_y", 25%Q)])|].
  split; [by apply (class_table_eq damping
            [("hip_y", 10%Q); ("hip_x", 10%Q); ("hip_z", 10%Q);
             ("knee", 10%Q); ("ankle_y", 10%Q)])|].
  split; [by apply (class_table_eq effort
            [("hip_y", 150%Q); ("hip_x", 150%Q); ("hip_z", 100%Q);
             ("knee", 150%Q); ("ankle_y", 25%Q)])|].
  split; [by apply (class_table_eq velocity
            [("hip_y", 10%Q); ("hip_x", 10%Q); ("hip_z", 10%Q);
             ("knee", 10%Q); ("ankle_y", 10%Q)])|].
  split; [by apply (class_table_eq friction
            [("hip", 0%Q); ("knee", 0%Q); ("ankle", 0%Q)])|].
  assert (∀ (kvs kvs' : list (string * Q)),
            kvs.*1 = kvs'.*1 →
            dom (foldl enter ∅ kvs) = dom (foldl enter ∅ kvs')) as Hdom.
  { intros kvs kvs' Hkeys. apply set_eq. intros key.
    by rewrite !elem_of_dom_dict, Hkeys. }
  split_and!.
  - intros key. by rewrite elem_of_dom_dict.
  - by apply Hdom.
  - by apply Hdom.
  - by apply Hdom.
  - intros key. by rewrite elem_of_dom_dict.
  - intros joint Hjoint. rewrite all_joints_Robot_eq in Hjoint.
    assert (Forall (λ joint,
                      Exists (λ key, joint = "L_" +:+ key ∨ joint = "R_" +:+ key)
                             class_keys)
                   ["L_ankle_y"; "L_hip_y"; "L_hip_z"; "L_hip_x"; "L_knee";
                    "R_ankle_y"; "R_hip_y"; "R_hip_z"; "R_hip_x"; "R_knee"])
      as Hall by by_evaluation.
    rewrite Forall_forall in Hall.
    apply Hall, Exists_exists in Hjoint as (key & Hkey & Hside).
    exists key. by rewrite elem_of_dom_dict.
  - intros key Hkey%elem_of_dom_dict. rewrite all_joints_Robot_eq.
    revert key Hkey. apply Forall_forall. by_evaluation.
  - intros joint Hjoint. rewrite all_joints_Robot_eq in Hjoint.
    assert (Forall (λ joint,
                      Exists (λ key, is_Some (String.index 0 key joint))
                             friction_keys)
                   ["L_ankle_y"; "L_hip_y"; "L_hip_z"; "L_hip_x"; "L_knee";
                    "R_ankle_y"; "R_hip_y"; "R_hip_z"; "R_hip_x"; "R_knee"])
      as Hall by by_evaluation.
    rewrite Forall_forall in Hall.
    apply Hall, Exists_exists in Hjoint as (key & Hkey & Hside).
    exists key. by rewrite elem_of_dom_dict.
Qed.

(** X13: [default_standing()] has an angle for every joint of
    [Robot.all_joints()] and for nothing else, so that the subscription by a
    joint of the robot does not raise and any other subscription does; its
    keys are those of the sign map. *)
Theorem X13_default_standing_covers_joints :
  ∃ pose signs,
    default_standing = Some pose ∧ isaac_to_mujoco_signs = Some signs ∧
    dom pose = list_to_set (all_joints Robot) ∧
    dom pose = dom signs ∧
    (∀ joint, joint ∈ all_joints Robot →
       ∃ angle, dict_getitem pose joint = inr angle) ∧
    (∀ name, name ∉ all_joints Robot →
       dict_getitem pose name = inl (KeyError name)).
Proof.
  exists (foldl enter ∅ standing_items), (foldl enter ∅ sign_items).
  assert (∀ key, key ∈ dom (foldl enter ∅ standing_items)
                 ↔ key ∈ all_joints Robot) as Hdom
    by (intros key; by rewrite elem_of_dom_dict, standing_keys_joints).
  split_and!; [apply default_standing_eq|apply isaac_to_mujoco_signs_eq|..].
  - apply set_eq. intros key. by rewrite Hdom, elem_of_list_to_set.
  - apply set_eq. intros key.
    by rewrite Hdom, elem_of_dom_dict, sign_keys_joints.
  - intros joint [angle Hangle]%Hdom%elem_of_dom. exists angle.
    unfold dict_getitem. by rewrite Hangle.
  - intros name Hname. unfold dict_getitem.
    rewrite <-Hdom in Hname. apply not_elem_of_dom in Hname. by rewrite Hname.
Qed.

(** ** The store *)

(** X14: from any store, [all_joints] returns a list object that did not
    exist before, which holds the items of the value-level [all_joints];
    the list objects that existed before are left as they were. *)
Theorem X14_all_joints_allocates cls (σ : store) :
  ∃ r σ',
    all_joints_st (depth cls) cls σ = Some (r, σ') ∧
    σ !! r = None ∧
    σ' !! r = Some (all_joints cls) ∧
    (∀ i items, σ !! i = Some items → σ' !! i = Some items).
Proof.
  destruct (all_joints_st_returns_new (depth cls) cls (depth cls)
              (reflexivity _) (reflexivity _) σ) as [rest Hrun].
  eexists _, _. split_and!; [exact Hrun|..].
  - by apply lookup_ge_None_2.
  - by apply list_lookup_middle.
  - intros i items Hi. by apply lookup_app_l_Some.
Qed.
